(** * jsonmapper_v2: a shallow embedding of the path engine and the
      condition evaluator, with the properties of its specification.

    The Go sources embedded here are [json_mapper_v2.go] ([Find], [Add],
    [Remove], [convertBracketsToDots]) and [conditions.go]
    ([FindAllWithCondition], [evaluateCondition], [checkCondition],
    [compareNumericUsingReflect], [convertToFloat64], [isNumeric]).

    Modelling decisions, all of them visible in the definitions below:
    - an [interface{}] value is the tagged union [Value]; the numeric tags
      keep the Go kind, because [checkCondition] inspects it;
    - a [map[string]interface{}] is an association list with the usual
      first-match lookup; its iteration order is the order of the list
      (Go leaves it unspecified);
    - [float64] is [spec_float] with the binary64 parameters;
    - [int] is 64 bits wide;
    - a run-time fault of Go (a failed type assertion, a slice expression
      with low > high, an assignment into a nil map) is the outcome [Panic];
    - documents are trees, so a pointer into the document is the trail of
      steps that leads to it from the root, and an update in place is an
      update at the end of that trail. *)

From Stdlib Require Import List String Ascii ZArith Bool Lia Arith.
From Stdlib Require Import Floats.SpecFloat.
From Stdlib Require Import DecimalString Decimal.
Import ListNotations.
Open Scope string_scope.
Open Scope list_scope.
Open Scope Z_scope.

Set Implicit Arguments.
Set Warnings "-register-all,-automation".  (* no [All] scheme is needed for the nested value type *)

(* ================================================================== *)
(** ** Strings: [strings.Split], [strconv.Atoi], the bracket rewriting *)
(* ================================================================== *)

Module GoString.

(** [strings.Split(s, ".")]: always at least one field. *)
Fixpoint Split_dot (s : string) : list string :=
  match s with
  | EmptyString => [EmptyString]
  | String c rest =>
      if Ascii.eqb c "."%char then EmptyString :: Split_dot rest
      else match Split_dot rest with
           | [] => [String c EmptyString]
           | f :: fs => String c f :: fs
           end
  end.

Definition is_digit (c : ascii) : bool :=
  let n := nat_of_ascii c in (48 <=? n)%nat && (n <=? 57)%nat.

Definition digit_val (c : ascii) : Z := Z.of_nat (nat_of_ascii c) - 48.

(** The longest run of decimal digits at the head of [s], and the rest. *)
Fixpoint span_digits (s : string) : string * string :=
  match s with
  | String c rest =>
      if is_digit c
      then let (d, r) := span_digits rest in (String c d, r)
      else (EmptyString, s)
  | EmptyString => (EmptyString, EmptyString)
  end.

(** One match of the regular expression [\[\-?(\d+)\]] at the head of
    [s], which starts just after the opening bracket: the text between
    the brackets and what follows the closing one. *)
Definition match_index (s : string) : option (string * string) :=
  let (sign, s1) :=
    match s with
    | String "-"%char r => ("-", r)
    | _ => ("", s)
    end in
  match span_digits s1 with
  | (EmptyString, _) => None
  | (ds, String "]"%char r) => Some ((sign ++ ds)%string, r)
  | _ => None
  end.

(** [convertBracketsToDots]: every leftmost, non-overlapping match of
    the expression is replaced by a dot and the text between its
    brackets.  [fuel] bounds the scan by the length of the input. *)
Fixpoint convert_from (fuel : nat) (s : string) : string :=
  match fuel with
  | O => s
  | S fuel' =>
      match s with
      | EmptyString => EmptyString
      | String c rest =>
          if Ascii.eqb c "["%char then
            match match_index rest with
            | Some (inner, r) => ("." ++ inner ++ convert_from fuel' r)%string
            | None => String c (convert_from fuel' rest)
            end
          else String c (convert_from fuel' rest)
      end
  end.

Definition convertBracketsToDots (keyPath : string) : string :=
  convert_from (String.length keyPath) keyPath.

(** ** [strconv.Atoi] on a 64-bit platform *)

Definition MaxInt64 : Z := 9223372036854775807.
Definition MinInt64 : Z := -9223372036854775808.
Definition MaxUint64 : Z := 18446744073709551615.

Inductive NumErr := ErrSyntax | ErrRange.

(** The digit loop of [strconv.ParseUint(s, 10, 64)]: a character that
    is not a digit is a syntax error, an overflow a range error with the
    largest value; whichever comes first. *)
Fixpoint ParseUint_loop (s : string) (n : Z) : Z * option NumErr :=
  match s with
  | EmptyString => (n, None)
  | String c rest =>
      if negb (is_digit c) then (0, Some ErrSyntax)
      else if MaxUint64 / 10 + 1 <=? n then (MaxUint64, Some ErrRange)
      else let n1 := n * 10 + digit_val c in
           if MaxUint64 <? n1 then (MaxUint64, Some ErrRange)
           else ParseUint_loop rest n1
  end.

Definition ParseUint (s : string) : Z * option NumErr :=
  match s with
  | EmptyString => (0, Some ErrSyntax)
  | _ => ParseUint_loop s 0
  end.

(** [strconv.Atoi]: an optional sign and decimal digits; the value and
    the error.  On a syntax error the value is 0, on a range error it is
    the nearest bound. *)
Definition Atoi (s : string) : Z * option NumErr :=
  match s with
  | EmptyString => (0, Some ErrSyntax)
  | String c rest =>
      let neg := Ascii.eqb c "-"%char in
      let s1 := if neg || Ascii.eqb c "+"%char then rest else s in
      match ParseUint s1 with
      | (_, Some ErrSyntax) => (0, Some ErrSyntax)
      | (un, _) =>
          let cutoff := MaxInt64 + 1 in
          if negb neg && (cutoff <=? un) then (MaxInt64, Some ErrRange)
          else if neg && (cutoff <? un) then (MinInt64, Some ErrRange)
          else (if neg then - un else un, None)
      end
  end.

(** [fmt.Sprintf("%d", i)] for a slice index. *)
Definition Itoa (n : nat) : string :=
  NilEmpty.string_of_uint (Nat.to_uint n).

End GoString.
Export GoString.

(* ================================================================== *)
(** ** The value model *)
(* ================================================================== *)

(** [float64]: IEEE 754 binary64. *)
Definition float64 := spec_float.
Definition f64_prec : Z := 53.
Definition f64_emax : Z := 1024.

(** The conversion [float64(n)] of an integer: round to nearest even. *)
Definition f64_of_Z (n : Z) : float64 :=
  binary_normalize f64_prec f64_emax n 0 false.

Inductive IntKind := Int | Int8 | Int16 | Int32 | Int64.
Inductive UintKind := Uint | Uint8 | Uint16 | Uint32 | Uint64.

(** What an [interface{}] of this library can hold: the six shapes that
    [json.Unmarshal] produces (nil, bool, float64, string, []interface{},
    map[string]interface{}) and the other numeric kinds, which a caller
    hands to [Add] or puts in a condition (an untyped constant such as
    [40] is an [int]). *)
Inductive Value :=
| VNil
| VBool (b : bool)
| VInt (k : IntKind) (n : Z)
| VUint (k : UintKind) (n : Z)
| VFloat32 (f : spec_float)
| VFloat64 (f : float64)
| VString (s : string)
| VSlice (l : list Value)
| VMap (mp : list (string * Value)).

Definition Mapping := list (string * Value).

(** A JSON number, as the decoder stores it. *)
Definition VNum (n : Z) : Value := VFloat64 (f64_of_Z n).

(** [reflect.TypeOf]: the dynamic type. *)
Inductive GoType :=
| TNil | TBool | TInt (k : IntKind) | TUint (k : UintKind)
| TFloat32 | TFloat64 | TString | TSlice | TMap.

Definition TypeOf (v : Value) : GoType :=
  match v with
  | VNil => TNil
  | VBool _ => TBool
  | VInt k _ => TInt k
  | VUint k _ => TUint k
  | VFloat32 _ => TFloat32
  | VFloat64 _ => TFloat64
  | VString _ => TString
  | VSlice _ => TSlice
  | VMap _ => TMap
  end.

Definition IntKind_eqb (a b : IntKind) : bool :=
  match a, b with
  | Int, Int | Int8, Int8 | Int16, Int16 | Int32, Int32 | Int64, Int64 => true
  | _, _ => false
  end.

Definition UintKind_eqb (a b : UintKind) : bool :=
  match a, b with
  | Uint, Uint | Uint8, Uint8 | Uint16, Uint16 | Uint32, Uint32
  | Uint64, Uint64 => true
  | _, _ => false
  end.

Definition GoType_eqb (a b : GoType) : bool :=
  match a, b with
  | TNil, TNil | TBool, TBool | TFloat32, TFloat32 | TFloat64, TFloat64
  | TString, TString | TSlice, TSlice | TMap, TMap => true
  | TInt k, TInt k' => IntKind_eqb k k'
  | TUint k, TUint k' => UintKind_eqb k k'
  | _, _ => false
  end.

(** [reflect.ValueOf(v).Kind().String()]. *)
Definition Kind_String (v : Value) : string :=
  match v with
  | VNil => "invalid"
  | VBool _ => "bool"
  | VInt Int _ => "int"
  | VInt Int8 _ => "int8"
  | VInt Int16 _ => "int16"
  | VInt Int32 _ => "int32"
  | VInt Int64 _ => "int64"
  | VUint Uint _ => "uint"
  | VUint Uint8 _ => "uint8"
  | VUint Uint16 _ => "uint16"
  | VUint Uint32 _ => "uint32"
  | VUint Uint64 _ => "uint64"
  | VFloat32 _ => "float32"
  | VFloat64 _ => "float64"
  | VString _ => "string"
  | VSlice _ => "slice"
  | VMap _ => "map"
  end.

(** *** Maps as association lists *)

(** [mp[k]] with the comma-ok form. *)
Fixpoint mget (k : string) (mp : Mapping) : option Value :=
  match mp with
  | [] => None
  | (k', v) :: r => if String.eqb k k' then Some v else mget k r
  end.

(** [mp[k] = v]. *)
Fixpoint mset (k : string) (v : Value) (mp : Mapping) : Mapping :=
  match mp with
  | [] => [(k, v)]
  | (k', v') :: r =>
      if String.eqb k k' then (k', v) :: r else (k', v') :: mset k v r
  end.

(** [delete(mp, k)]. *)
Fixpoint mdelete (k : string) (mp : Mapping) : Mapping :=
  match mp with
  | [] => []
  | (k', v') :: r =>
      if String.eqb k k' then mdelete k r else (k', v') :: mdelete k r
  end.

(** The entry under [k] rewritten by [g]. *)
Fixpoint malter (k : string) (g : Value -> Value) (mp : Mapping) : Mapping :=
  match mp with
  | [] => []
  | (k', v') :: r =>
      if String.eqb k k' then (k', g v') :: r else (k', v') :: malter k g r
  end.

(** [l[n] = g(l[n])]. *)
Fixpoint lalter (n : nat) (g : Value -> Value) (l : list Value) : list Value :=
  match l, n with
  | [], _ => []
  | x :: r, O => g x :: r
  | x :: r, S n' => x :: lalter n' g r
  end.

(** [reflect.DeepEqual] on two values held in [interface{}]: the same
    dynamic type and, recursively, the same contents; floats by [==],
    maps key by key. *)
Fixpoint DeepEqual (a b : Value) {struct a} : bool :=
  match a, b with
  | VNil, VNil => true
  | VBool x, VBool y => Bool.eqb x y
  | VInt k x, VInt k' y => IntKind_eqb k k' && Z.eqb x y
  | VUint k x, VUint k' y => UintKind_eqb k k' && Z.eqb x y
  | VFloat32 x, VFloat32 y => SFeqb x y
  | VFloat64 x, VFloat64 y => SFeqb x y
  | VString x, VString y => String.eqb x y
  | VSlice l1, VSlice l2 =>
      (fix elems (l1 l2 : list Value) {struct l1} : bool :=
         match l1, l2 with
         | [], [] => true
         | x :: xs, y :: ys => DeepEqual x y && elems xs ys
         | _, _ => false
         end) l1 l2
  | VMap m1, VMap m2 =>
      Nat.eqb (List.length m1) (List.length m2) &&
      (fix entries (m1 : Mapping) {struct m1} : bool :=
         match m1 with
         | [] => true
         | (k, v) :: r =>
             match mget k m2 with
             | Some v' => DeepEqual v v'
             | None => false
             end && entries r
         end) m1
  | _, _ => false
  end.

(** *** Outcomes *)

(** The errors of the library, one constructor per [fmt.Errorf] of the
    source, with the arguments of its format. *)
Inductive error :=
| EKeyNotFound (key : string)              (* Find: key not found *)
| EInvalidArrayIndex (key : string)        (* Find: invalid array index *)
| EIndexOutOfRange (index : Z)             (* Find: array index out of range *)
| EAddInvalidArrayIndex (key : string)     (* Add: invalid array index *)
| EAddIndexOutOfRange (index : Z)          (* Add: array index is out of range *)
| ERemoveIndexOutOfRange (index : Z)       (* Remove: array index is out of range *)
| EExpectedMap (key : string)              (* Remove: expected a map at *)
| EUnexpectedType (key : string)           (* Remove: unexpected type at *)
| EUnsupportedLogical (op : string)        (* unsupported logical operation *)
| EInvalidConditions                       (* invalid conditions format *)
| ENoValidCondition                        (* no valid condition found *)
| EComparisonNotSupported (op : string)    (* comparison not supported for non-numeric types *)
| EUnsupportedOperation (op : string)      (* unsupported operation *)
| EUnsupportedNumericOp (op : string)      (* unsupported numeric comparison operation *)
| EUnsupportedNumericType.                 (* unsupported type for numeric comparison *)

(** The run-time faults of Go that the source can raise. *)
Inductive fault :=
| FTypeAssertion                (* interface conversion: x.(T) on another type *)
| FSliceBounds (lo hi : Z)      (* slice bounds out of range [lo:hi] *)
| FNilMapAssign                 (* assignment to entry in nil map *)
| FZeroValue.                   (* reflect: call of Value.Interface on zero Value *)

Inductive result (A : Type) :=
| Ok (a : A)
| Err (e : error)
| Panic (p : fault).
Arguments Ok {A} a.
Arguments Err {A} e.
Arguments Panic {A} p.

Definition bind {A B} (r : result A) (f : A -> result B) : result B :=
  match r with
  | Ok a => f a
  | Err e => Err e
  | Panic p => Panic p
  end.

Notation "'do' x <- r ; k" := (bind r (fun x => k))
  (at level 10, x name, r at level 100, k at level 200).

(** The kinds of error that the specification names. *)
Inductive ErrorKind :=
| KeyNotFound | IndexOutOfRange | InvalidIndex | TypeMismatch
| UnsupportedOperator | UnsupportedComparison | InvalidNumericType
| InvalidCondition.

Definition kind_of (e : error) : ErrorKind :=
  match e with
  | EKeyNotFound _ => KeyNotFound
  | EInvalidArrayIndex _ | EAddInvalidArrayIndex _ => InvalidIndex
  | EIndexOutOfRange _ | EAddIndexOutOfRange _
  | ERemoveIndexOutOfRange _ => IndexOutOfRange
  | EExpectedMap _ | EUnexpectedType _ => TypeMismatch
  | EUnsupportedLogical _ | EUnsupportedOperation _
  | EUnsupportedNumericOp _ => UnsupportedOperator
  | EComparisonNotSupported _ => UnsupportedComparison
  | EUnsupportedNumericType => InvalidNumericType
  | EInvalidConditions | ENoValidCondition => InvalidCondition
  end.

(* ================================================================== *)
(** ** The document and pointers into it *)
(* ================================================================== *)

(** [type JsonMapper struct { m map[string]interface{} }] *)
Record JsonMapper := mkJsonMapper { m : Mapping }.

(** A step from a container to one of its children. *)
Inductive Step :=
| Key (k : string)     (* the entry of a map *)
| Idx (n : nat).       (* the element of a slice *)

(** A Go reference to a map or a slice inside the document is the trail
    from the root to it. *)
Definition Trail := list Step.

(** The node at the end of a trail. *)
Fixpoint get_at (v : Value) (p : Trail) : option Value :=
  match p with
  | [] => Some v
  | Key k :: p' =>
      match v with
      | VMap mp => match mget k mp with
                   | Some v' => get_at v' p'
                   | None => None
                   end
      | _ => None
      end
  | Idx n :: p' =>
      match v with
      | VSlice l => match nth_error l n with
                    | Some v' => get_at v' p'
                    | None => None
                    end
      | _ => None
      end
  end.

(** The node at the end of a trail rewritten by [f]: a mutation in place. *)
Fixpoint upd_at (v : Value) (p : Trail) (f : Value -> Value) : Value :=
  match p with
  | [] => f v
  | Key k :: p' =>
      match v with
      | VMap mp => VMap (malter k (fun v' => upd_at v' p' f) mp)
      | _ => v
      end
  | Idx n :: p' =>
      match v with
      | VSlice l => VSlice (lalter n (fun v' => upd_at v' p' f) l)
      | _ => v
      end
  end.

Definition root (j : JsonMapper) : Value := VMap (m j).

Definition deref (j : JsonMapper) (p : Trail) : option Value :=
  get_at (root j) p.

Definition store (j : JsonMapper) (p : Trail) (f : Value -> Value)
  : JsonMapper :=
  match upd_at (root j) p f with
  | VMap mp => mkJsonMapper mp
  | _ => j
  end.

(** [node[key] = value] on a map node. *)
Definition assign (key : string) (value : Value) (node : Value) : Value :=
  match node with
  | VMap mp => VMap (mset key value mp)
  | _ => node
  end.

(** [delete(node, key)] on a map node. *)
Definition remove_key (key : string) (node : Value) : Value :=
  match node with
  | VMap mp => VMap (mdelete key mp)
  | _ => node
  end.

(** [keys[i]]; the empty string stands for an index that the source never
    reads. *)
Definition key_at (keys : list string) (i : nat) : string :=
  nth i keys "".

(* ================================================================== *)
(** ** [Find] *)
(* ================================================================== *)

(** The loop of [Find] over the keys. *)
Fixpoint Find_loop (current : Value) (keys : list string) : result Value :=
  match keys with
  | [] => Ok current
  | key :: rest =>
      match current with
      | VMap currentType =>
          match mget key currentType with
          | Some value => Find_loop value rest
          | None => Err (EKeyNotFound key)
          end
      | VSlice currentType =>
          match Atoi key with
          | (_, Some _) => Err (EInvalidArrayIndex key)
          | (index, None) =>
              if (index <? 0) || (Z.of_nat (List.length currentType) <=? index)
              then Err (EIndexOutOfRange index)
              else Find_loop (nth (Z.to_nat index) currentType VNil) rest
          end
      | _ => Ok current
      end
  end.

(** The keys of a path string. *)
Definition keys_of (keyPath : string) : list string :=
  Split_dot (convertBracketsToDots keyPath).

Definition Find (j : JsonMapper) (keyPath : string) : result Value :=
  if String.eqb keyPath "" then Ok (root j)
  else Find_loop (root j) (keys_of keyPath).

(* ================================================================== *)
(** ** [Add] *)
(* ================================================================== *)

(** What an operation that mutates the document leaves behind: how it
    ended and the document in the state it has then. *)
Definition effect := (result unit * JsonMapper)%type.

(** [keys[lo:hi]]: a fault when [lo > hi]. *)
Definition slice_keys (keys : list string) (lo hi : nat)
  : result (list string) :=
  if (hi <? lo)%nat then Panic (FSliceBounds (Z.of_nat lo) (Z.of_nat hi))
  else Ok (firstn (hi - lo) (skipn lo keys)).

(** The walk of the re-attachment: [grandParent = grandParent[k].(map)]
    for each key; [None] is the nil map. *)
Fixpoint grandParent_walk (j : JsonMapper) (grandParent : option Trail)
    (ks : list string) : result (option Trail) :=
  match ks with
  | [] => Ok grandParent
  | k :: ks' =>
      match grandParent with
      | None => Panic FTypeAssertion
      | Some gp =>
          match deref j (gp ++ [Key k]) with
          | Some (VMap _) => grandParent_walk j (Some (gp ++ [Key k])) ks'
          | _ => Panic FTypeAssertion
          end
      end
  end.

(** Lines 130 to 137: the slice [current] is put back under [keys[i-1]]
    in the map found by walking [keys[0]], then [keys[1 : i-1]], from the
    root. *)
Definition reattach (j : JsonMapper) (keys : list string) (i : nat)
    (current : Value) : effect :=
  if (0 <? i)%nat then
    let parentKey := key_at keys (i - 1) in
    let grandParent :=
      match deref j [Key (key_at keys 0)] with
      | Some (VMap _) => Some [Key (key_at keys 0)]
      | _ => None
      end in
    match slice_keys keys 1 (i - 1) with
    | Panic p => (Panic p, j)
    | Err e => (Err e, j)
    | Ok ks =>
        match grandParent_walk j grandParent ks with
        | Panic p => (Panic p, j)
        | Err e => (Err e, j)
        | Ok None => (Panic FNilMapAssign, j)
        | Ok (Some gp) => (Ok tt, store j gp (assign parentKey current))
        end
    end
  else (Ok tt, j).

(** The loop of [Add]: [rest] is [keys[i:]] and [current] points to the
    node reached so far; the key is the last one when nothing follows it. *)
Fixpoint Add_loop (keys : list string) (value : Value) (i : nat)
    (rest : list string) (current : Trail) (j : JsonMapper) : effect :=
  match rest with
  | [] => (Ok tt, j)
  | key :: rest' =>
      match rest' with
      | [] =>
          (* lastKey *)
          match deref j current with
          | Some (VMap _) => (Ok tt, store j current (assign key value))
          | Some (VSlice parent) =>
              match Atoi key with
              | (_, Some _) => (Err (EAddInvalidArrayIndex key), j)
              | (index, None) =>
                  if index =? -1 then
                    reattach j keys i (VSlice (parent ++ [value]))
                  else if (0 <=? index)
                          && (index <? Z.of_nat (List.length parent)) then
                    let j1 := store j current
                                (fun _ => VSlice (lalter (Z.to_nat index)
                                                    (fun _ => value) parent)) in
                    reattach j1 keys i
                      (VSlice (lalter (Z.to_nat index) (fun _ => value) parent))
                  else (Err (EAddIndexOutOfRange index), j)
              end
          | _ => (Ok tt, j)
          end
      | _ :: _ =>
          match deref j current with
          | Some (VMap mp) =>
              match mget key mp with
              | Some _ =>
                  Add_loop keys value (S i) rest' (current ++ [Key key]) j
              | None =>
                  match Atoi key with
                  | (index, None) =>
                      (* [current.([]interface{})] with the comma-ok form
                         fails on a map. *)
                      (Err (EAddInvalidArrayIndex key), j)
                  | (_, Some _) =>
                      let j1 := store j current (assign key (VMap [])) in
                      Add_loop keys value (S i) rest' (current ++ [Key key]) j1
                  end
              end
          | _ =>
              (* [current.(map[string]interface{})] on another type *)
              (Panic FTypeAssertion, j)
          end
      end
  end.

Definition Add (j : JsonMapper) (keyPath : string) (value : Value) : effect :=
  let keys := keys_of keyPath in
  Add_loop keys value 0 keys [] j.

(* ================================================================== *)
(** ** [Remove] *)
(* ================================================================== *)

(** [current[key]] on the map that [current] points to; a missing key
    gives the nil interface. *)
Definition index_map (j : JsonMapper) (current : Trail) (key : string)
  : Value :=
  match deref j current with
  | Some (VMap mp) => match mget key mp with
                      | Some v => v
                      | None => VNil
                      end
  | _ => VNil
  end.

(** [append(s[:index], s[index+1:]...)] *)
Definition splice (index : nat) (s : list Value) : list Value :=
  firstn index s ++ skipn (S index) s.

(** The statements after the loop of [Remove]. *)
Definition Remove_end (keys : list string) (parent : option Trail)
    (j : JsonMapper) : effect :=
  match parent with
  | Some p =>
      (Ok tt, store j p (remove_key (key_at keys (List.length keys - 1))))
  | None => (Ok tt, j)
  end.

(** The loop of [Remove]: [rest] is [keys[i:]]; [i == len(keys)-1] when
    nothing follows the key and [i == len(keys)-2] when exactly one key
    does, which is [keys[i+1]]. *)
Fixpoint Remove_loop (keys : list string) (rest : list string)
    (current : Trail) (parent : option Trail) (parentKey : string)
    (j : JsonMapper) : effect :=
  match rest with
  | [] => Remove_end keys parent j
  | key :: rest' =>
      match rest' with
      | [] => Remove_end keys parent j                 (* break *)
      | next :: rest'' =>
          let penultimate := match rest'' with [] => true | _ => false end in
          let parent := if penultimate then Some current else parent in
          let parentKey := if penultimate then key else parentKey in
          match index_map j current key with
          | VMap _ =>
              Remove_loop keys rest' (current ++ [Key key]) parent parentKey j
          | VSlice currentElement =>
              let (index0, err) := Atoi next in
              let len := Z.of_nat (List.length currentElement) in
              let index :=
                match err with
                | None => if index0 =? -1 then len - 1 else index0
                | Some _ => index0
                end in
              if (index <? 0) || (len <=? index)
              then (Err (ERemoveIndexOutOfRange index), j)
              else if penultimate then
                let updatedSlice := splice (Z.to_nat index) currentElement in
                (Ok tt, store j current (assign parentKey (VSlice updatedSlice)))
              else
                match nth (Z.to_nat index) currentElement VNil with
                | VMap _ =>
                    Remove_loop keys rest'
                      (current ++ [Key key; Idx (Z.to_nat index)])
                      parent parentKey j
                | _ => (Err (EExpectedMap next), j)
                end
          | _ => (Err (EUnexpectedType key), j)
          end
      end
  end.

Definition Remove (j : JsonMapper) (keyPath : string) : effect :=
  let keys := keys_of keyPath in
  Remove_loop keys keys [] None "" j.

(* ================================================================== *)
(** ** The condition evaluator *)
(* ================================================================== *)

(** The shapes of the [conditions] argument that [evaluateCondition]
    tells apart. *)
Inductive Conditions :=
| CondFlat (cond : Mapping)                        (* map[string]interface{} *)
| CondLogical (cond : list (string * list Mapping)) (* map[string][]map[string]interface{} *)
| CondOther.                                       (* anything else *)

Definition isNumeric (value : Value) : bool :=
  match value with
  | VFloat64 _ | VFloat32 _ | VInt _ _ | VUint _ _ => true
  | _ => false
  end.

Definition convertToFloat64 (value : Value) : result float64 :=
  match value with
  | VFloat64 v => Ok v
  | VFloat32 v => Ok v                 (* the widening is exact *)
  | VInt _ n => Ok (f64_of_Z n)
  | VUint _ n => Ok (f64_of_Z n)
  | _ => Err EUnsupportedNumericType
  end.

(** [reflect.Value.Interface]: a fault on the zero [reflect.Value], which
    is what [reflect.ValueOf(nil)] returns. *)
Definition Interface (v : Value) : result Value :=
  match v with
  | VNil => Panic FZeroValue
  | _ => Ok v
  end.

Definition compareNumericUsingReflect (vValue vThreshold : Value)
    (op : string) : result bool :=
  do x <- Interface vValue;
  do valueFloat <- convertToFloat64 x;
  do y <- Interface vThreshold;
  do thresholdFloat <- convertToFloat64 y;
  if String.eqb op "lt" then Ok (SFltb valueFloat thresholdFloat)
  else if String.eqb op "lte" then Ok (SFleb valueFloat thresholdFloat)
  else if String.eqb op "gt" then Ok (SFltb thresholdFloat valueFloat)
  else if String.eqb op "gte" then Ok (SFleb thresholdFloat valueFloat)
  else Err (EUnsupportedNumericOp op).

Definition is_ordering (op : string) : bool :=
  String.eqb op "lt" || String.eqb op "lte"
  || String.eqb op "gt" || String.eqb op "gte".

Definition checkCondition (value : Value) (op : string) (threshold : Value)
  : result bool :=
  if String.eqb op "eq" then
    if isNumeric value && isNumeric threshold then
      do valueFloat <- convertToFloat64 value;
      do thresholdFloat <- convertToFloat64 threshold;
      Ok (SFeqb valueFloat thresholdFloat)
    else Ok (DeepEqual value threshold)
  else if String.eqb op "neq" then
    if negb (GoType_eqb (TypeOf value) (TypeOf threshold)) then Ok true
    else Ok (negb (DeepEqual value threshold))
  else if is_ordering op then
    (* [&&] binds tighter than [||] *)
    if String.eqb (Kind_String value) "int"
       || (String.eqb (Kind_String value) "float64"
           && (String.eqb (Kind_String threshold) "int"
               || String.eqb (Kind_String threshold) "float64"))
    then compareNumericUsingReflect value threshold op
    else Err (EComparisonNotSupported op)
  else Err (EUnsupportedOperation op).

(** The (operator, operand) pairs of the subconditions, in the order in
    which the nested loops visit them. *)
Definition pairs_of (subConditions : list Mapping) : Mapping :=
  List.concat subConditions.

(** [and]: stop at the first error or unsatisfied pair. *)
Fixpoint eval_and (value : Value) (ps : Mapping) : result bool :=
  match ps with
  | [] => Ok true
  | (op, conditionValue) :: r =>
      match checkCondition value op conditionValue with
      | Ok true => eval_and value r
      | Ok false => Ok false
      | Err e => Err e
      | Panic p => Panic p
      end
  end.

(** [or]: stop at the first error or satisfied pair. *)
Fixpoint eval_or (value : Value) (ps : Mapping) : result bool :=
  match ps with
  | [] => Ok false
  | (op, conditionValue) :: r =>
      match checkCondition value op conditionValue with
      | Ok true => Ok true
      | Ok false => eval_or value r
      | Err e => Err e
      | Panic p => Panic p
      end
  end.

(** [xor]: count the satisfied pairs of the whole list; stop only at an
    error. *)
Fixpoint eval_xor (value : Value) (ps : Mapping) (satisfiedCount : nat)
  : result bool :=
  match ps with
  | [] => Ok (Nat.eqb satisfiedCount 1)
  | (op, conditionValue) :: r =>
      match checkCondition value op conditionValue with
      | Ok satisfied =>
          eval_xor value r
            (if satisfied then S satisfiedCount else satisfiedCount)
      | Err e => Err e
      | Panic p => Panic p
      end
  end.

(** [nor]: stop at the first error or satisfied pair. *)
Fixpoint eval_nor (value : Value) (ps : Mapping) : result bool :=
  match ps with
  | [] => Ok true
  | (op, conditionValue) :: r =>
      match checkCondition value op conditionValue with
      | Ok true => Ok false
      | Ok false => eval_nor value r
      | Err e => Err e
      | Panic p => Panic p
      end
  end.

Definition one_of (s a b : string) : bool := String.eqb s a || String.eqb s b.

(** [evaluateCondition]: each [range] over a map returns in its first
    iteration, so only the first entry counts. *)
Definition evaluateCondition (value : Value) (conditions : Conditions)
  : result bool :=
  match conditions with
  | CondFlat cond =>
      match cond with
      | (op, conditionValue) :: _ => checkCondition value op conditionValue
      | [] => Err ENoValidCondition
      end
  | CondLogical cond =>
      match cond with
      | (logicalOp, subConditions) :: _ =>
          if one_of logicalOp "and" "AND" then
            eval_and value (pairs_of subConditions)
          else if one_of logicalOp "or" "OR" then
            eval_or value (pairs_of subConditions)
          else if one_of logicalOp "xor" "XOR" then
            eval_xor value (pairs_of subConditions) 0
          else if one_of logicalOp "nor" "NOR" then
            eval_nor value (pairs_of subConditions)
          else Err (EUnsupportedLogical logicalOp)
      | [] => Err ENoValidCondition
      end
  | CondOther => Err EInvalidConditions
  end.

(** What a call of the closure [evaluate] leaves behind: the error it
    returns, or the fault that unwinds it, and the results so far. *)
Definition visit := (result unit * list string)%type.

(** A recursive call of [evaluate] as a statement: its error is dropped,
    a fault goes on unwinding. *)
Definition discard (r : visit) (k : list string -> visit) : visit :=
  match r with
  | (Panic p, results) => (Panic p, results)
  | (_, results) => k results
  end.

(** The closure [evaluate] of [FindAllWithCondition]. *)
Fixpoint evaluate (conditions : Conditions) (current : Value)
    (currentPath : string) (results : list string) {struct current} : visit :=
  match current with
  | VMap currentType =>
      (fix entries (mp : Mapping) (results : list string) {struct mp} : visit :=
         match mp with
         | [] => (Ok tt, results)
         | (k, v) :: r =>
             let newPath :=
               ((if String.eqb currentPath "" then currentPath
                 else currentPath ++ ".") ++ k)%string in
             discard (evaluate conditions v newPath results) (entries r)
         end) currentType results
  | VSlice currentType =>
      (fix elems (l : list Value) (i : nat) (results : list string)
           {struct l} : visit :=
         match l with
         | [] => (Ok tt, results)
         | v :: r =>
             let newPath := (currentPath ++ "[" ++ Itoa i ++ "]")%string in
             discard (evaluate conditions v newPath results) (elems r (S i))
         end) currentType 0%nat results
  | _ =>
      match evaluateCondition current conditions with
      | Err e => (Err e, results)
      | Panic p => (Panic p, results)
      | Ok satisfied =>
          (Ok tt, if satisfied then results ++ [currentPath] else results)
      end
  end.

Definition FindAllWithCondition (j : JsonMapper) (keyPath : string)
    (conditions : Conditions) : result (list string) :=
  do startValue <-
     (if String.eqb keyPath "" then Ok (root j) else Find j keyPath);
  match evaluate conditions startValue keyPath [] with
  | (Ok _, results) => Ok results
  | (Err e, _) => Err e
  | (Panic p, _) => Panic p
  end.

(* ================================================================== *)
(** ** The scenario of the specification *)
(* ================================================================== *)

(** The document [{"a":{"b":1,"c":[10,20,30]}}]; [c_first] chooses the
    order in which the two keys of ["a"] are iterated. *)
Definition scenario (c_first : bool) : JsonMapper :=
  let b := ("b", VNum 1) in
  let c := ("c", VSlice [VNum 10; VNum 20; VNum 30]) in
  mkJsonMapper [("a", VMap (if c_first then [c; b] else [b; c]))].

Definition scenario_added (c_first : bool) : JsonMapper :=
  snd (Add (scenario c_first) "a.c[-1]" (VInt Int 40)).

Definition scenario_removed (c_first : bool) : JsonMapper :=
  snd (Remove (scenario_added c_first) "a.c.0").

Definition gt_25 : Conditions := CondFlat [("gt", VInt Int 25)].

(* ================================================================== *)
(** ** Notions of the statements *)
(* ================================================================== *)

(** A pair of a subcondition is satisfied when its check returns true. *)
Definition satisfied (value : Value) (p : string * Value) : bool :=
  match checkCondition value (fst p) (snd p) with
  | Ok true => true
  | _ => false
  end.

(** It is evaluable when its check returns at all. *)
Definition evaluable (value : Value) (p : string * Value) : bool :=
  match checkCondition value (fst p) (snd p) with
  | Ok _ => true
  | _ => false
  end.

Definition satisfiedCount (value : Value) (ps : Mapping) : nat :=
  List.length (filter (satisfied value) ps).

(** The descent of the loop of [Remove] up to its iteration
    [i == len(keys)-2]: the map that [current] points to there, with
    [keys[i]] and [keys[i+1]]; nothing when the loop returns before. *)
Fixpoint Remove_walk (j : JsonMapper) (rest : list string) (current : Trail)
  : option (Trail * string * string) :=
  match rest with
  | [] => None
  | key :: rest' =>
      match rest' with
      | [] => None
      | next :: rest'' =>
          match rest'' with
          | [] => Some (current, key, next)
          | _ :: _ =>
              match index_map j current key with
              | VMap _ => Remove_walk j rest' (current ++ [Key key])
              | VSlice currentElement =>
                  let (index0, err) := Atoi next in
                  let len := Z.of_nat (List.length currentElement) in
                  let index :=
                    match err with
                    | None => if index0 =? -1 then len - 1 else index0
                    | Some _ => index0
                    end in
                  if (index <? 0) || (len <=? index) then None
                  else
                    match nth (Z.to_nat index) currentElement VNil with
                    | VMap _ =>
                        Remove_walk j rest'
                          (current ++ [Key key; Idx (Z.to_nat index)])
                    | _ => None
                    end
              | _ => None
              end
          end
      end
  end.

Definition is_container (v : Value) : bool :=
  match v with
  | VMap _ | VSlice _ => true
  | _ => false
  end.

(** [Find] along [pre] ends on a value that is neither a map nor a
    slice. *)
Definition resolves_to_scalar (v : Value) (pre : list string) : bool :=
  match Find_loop v pre with
  | Ok c => negb (is_container c)
  | _ => false
  end.

(* ================================================================== *)
(** ** The typed accessors *)
(* ================================================================== *)

(** The errors of the typed accessors, one constructor per [fmt.Errorf]
    of theirs; [k] is the path. *)
Inductive TypeError :=
| ENotBool (k : string)               (* value at k is not a bool *)
| ENotString (k : string)             (* value at k is not a string *)
| ENotFloat (k : string)              (* value at k is not a float *)
| ENotSlice (k : string)              (* value at k is not a slice *)
| ENotMap (k : string)                (* value at k is not a map *)
| EElementNotMap (k : string)         (* element in slice at k is not a map *)
| ENotSliceOfMaps (k : string).       (* value at k is not a slice of maps *)

(** What a typed accessor returns: the value, the error of [Find], or an
    error of its own. *)
Inductive typed (A : Type) :=
| Found (a : A)
| FindFailed (e : error)
| Mismatch (e : TypeError)
| Faulted (p : fault).
Arguments Found {A} a.
Arguments FindFailed {A} e.
Arguments Mismatch {A} e.
Arguments Faulted {A} p.

(** The common shape of the accessors: [Find], then a type assertion in
    the comma-ok form. *)
Definition assert_type {A : Type} (j : JsonMapper) (k : string)
    (cast : Value -> option A) (e : TypeError) : typed A :=
  match Find j k with
  | Err err => FindFailed err
  | Panic p => Faulted p
  | Ok tmp =>
      match cast tmp with
      | Some a => Found a
      | None => Mismatch e
      end
  end.

(** The shape of the [...Or] variants. *)
Definition or_default {A : Type} (r : typed A) (defaultValue : A) : A :=
  match r with
  | Found a => a
  | _ => defaultValue
  end.

Definition FindBool (j : JsonMapper) (k : string) : typed bool :=
  assert_type j k (fun v => match v with VBool b => Some b | _ => None end)
    (ENotBool k).

Definition FindBoolOr (j : JsonMapper) (k : string) (defaultValue : bool)
  : bool := or_default (FindBool j k) defaultValue.

Definition FindString (j : JsonMapper) (k : string) : typed string :=
  assert_type j k (fun v => match v with VString s => Some s | _ => None end)
    (ENotString k).

Definition FindStringOr (j : JsonMapper) (k : string) (defaultValue : string)
  : string := or_default (FindString j k) defaultValue.

Definition FindFloat (j : JsonMapper) (k : string) : typed float64 :=
  assert_type j k (fun v => match v with VFloat64 f => Some f | _ => None end)
    (ENotFloat k).

Definition FindFloatOr (j : JsonMapper) (k : string) (defaultValue : float64)
  : float64 := or_default (FindFloat j k) defaultValue.

Definition FindSlice (j : JsonMapper) (k : string) : typed (list Value) :=
  assert_type j k (fun v => match v with VSlice l => Some l | _ => None end)
    (ENotSlice k).

Definition FindSliceOr (j : JsonMapper) (k : string)
    (defaultValue : list Value) : list Value :=
  or_default (FindSlice j k) defaultValue.

Definition FindMap (j : JsonMapper) (k : string) : typed Mapping :=
  assert_type j k (fun v => match v with VMap mp => Some mp | _ => None end)
    (ENotMap k).

Definition FindMapOr (j : JsonMapper) (k : string) (defaultValue : Mapping)
  : Mapping := or_default (FindMap j k) defaultValue.

(** The loop of [FindSliceOfMaps]: the maps of the slice in their order,
    nothing at the first element that is not a map. *)
Fixpoint maps_of (slice : list Value) : option (list Mapping) :=
  match slice with
  | [] => Some []
  | VMap mp :: rest =>
      match maps_of rest with
      | Some sliceOfMaps => Some (mp :: sliceOfMaps)
      | None => None
      end
  | _ :: _ => None
  end.

Definition FindSliceOfMaps (j : JsonMapper) (k : string)
  : typed (list Mapping) :=
  match Find j k with
  | Err err => FindFailed err
  | Panic p => Faulted p
  | Ok (VSlice slice) =>
      match maps_of slice with
      | Some sliceOfMaps => Found sliceOfMaps
      | None => Mismatch (EElementNotMap k)
      end
  | Ok _ => Mismatch (ENotSliceOfMaps k)
  end.

(** The expected result of a search in a slice of leaves: the indices of
    the elements on which the condition returns true, from [i] on, as
    paths under [currentPath]. *)
Fixpoint matching_elements (conditions : Conditions) (currentPath : string)
    (l : list Value) (i : nat) : list string :=
  match l with
  | [] => []
  | v :: r =>
      let rest := matching_elements conditions currentPath r (S i) in
      match evaluateCondition v conditions with
      | Ok true => (currentPath ++ "[" ++ Itoa i ++ "]")%string :: rest
      | _ => rest
      end
  end.

(** The six operators of [checkCondition]. *)
Definition is_comparison (op : string) : bool :=
  String.eqb op "eq" || String.eqb op "neq" || is_ordering op.

(** The field [m] as the constructors leave it: it is nil after
    [json.Unmarshal] of the text [null], and a map otherwise. *)
Inductive RootMap :=
| NilMap
| NonNilMap (j : JsonMapper).

(** [Add] on either root.  On the nil map the first iteration decides:
    with one key, [parent[key] = value] is an assignment into the nil
    map; with more, the lookup finds nothing, a key that is the text of
    an integer returns the error, and any other key reaches
    [current.(map[string]interface{})[key] = make(...)], the same
    assignment. *)
Definition Add_root (r : RootMap) (keyPath : string) (value : Value)
  : result unit * RootMap :=
  match r with
  | NonNilMap j =>
      let (status, j') := Add j keyPath value in (status, NonNilMap j')
  | NilMap =>
      match keys_of keyPath with
      | [] => (Ok tt, NilMap)
      | [key] => (Panic FNilMapAssign, NilMap)
      | key :: _ :: _ =>
          match Atoi key with
          | (_, None) => (Err (EAddInvalidArrayIndex key), NilMap)
          | (_, Some _) => (Panic FNilMapAssign, NilMap)
          end
      end
  end.

(** A condition each of whose maps has one entry at most: a [range]
    over such a map has one order only, so the evaluation does not
    depend on the order in which Go iterates. *)
Definition order_free (conditions : Conditions) : bool :=
  match conditions with
  | CondFlat cond => (List.length cond <=? 1)%nat
  | CondLogical cond =>
      (List.length cond <=? 1)%nat
      && forallb
           (fun entry =>
              forallb (fun conditionMap : Mapping =>
                         (List.length conditionMap <=? 1)%nat)
                (snd entry))
           cond
  | CondOther => true
  end.

(* ================================================================== *)
(** ** The string functions at work *)
(* ================================================================== *)

Example Split_dot_ex : Split_dot "a.c.1" = ["a"; "c"; "1"].
Proof. reflexivity. Qed.

Example convert_ex :
  convertBracketsToDots "a.b[2].c[-1]" = "a.b.2.c.-1".
Proof. reflexivity. Qed.

Example convert_keeps_other_brackets :
  convertBracketsToDots "a[x].b[--1][]" = "a[x].b[--1][]".
Proof. reflexivity. Qed.

Example Atoi_ex :
  Atoi "12" = (12, None) /\ Atoi "-1" = (-1, None) /\ Atoi "+7" = (7, None)
  /\ Atoi "foo" = (0, Some ErrSyntax) /\ Atoi "" = (0, Some ErrSyntax)
  /\ Atoi "-" = (0, Some ErrSyntax)
  /\ Atoi "99999999999999999999" = (MaxInt64, Some ErrRange).
Proof. repeat split; reflexivity. Qed.

(* ================================================================== *)
(** ** Properties of the condition evaluator *)
(* ================================================================== *)

Section Logical.

Variable value : Value.



End Logical.



(** [xor] at work: on the leaf 5, one satisfied pair of two gives true,
    two of two give false. *)
Example xor_ex :
  evaluateCondition (VNum 5)
    (CondLogical [("xor", [[("eq", VInt Int 5)]; [("gt", VInt Int 9)]])])
  = Ok true
  /\ evaluateCondition (VNum 5)
    (CondLogical [("xor", [[("eq", VInt Int 5)]; [("lt", VInt Int 9)]])])
  = Ok false.
Proof. split; vm_compute; reflexivity. Qed.

Lemma GoType_eqb_eq (a b : GoType) : GoType_eqb a b = true <-> a = b.
Proof.
  split.
  - destruct a as [| |k|k| | | | |], b as [| |k'|k'| | | | |];
      simpl; try discriminate; try reflexivity;
      destruct k, k'; simpl; try discriminate; reflexivity.
  - intros <-. destruct a as [| |k|k| | | | |]; simpl; try reflexivity;
      destruct k; reflexivity.
Qed.

(** C8.  [neq] is true whenever the dynamic types differ, whatever the
    contents; on equal dynamic types it is the negation of the structural
    equality [DeepEqual].  The integer 5 and the string "5" differ. *)
Theorem C8_neq_type_mismatch :
  forall value operand : Value,
    (TypeOf value <> TypeOf operand ->
       checkCondition value "neq" operand = Ok true)
    /\ (TypeOf value = TypeOf operand ->
       checkCondition value "neq" operand = Ok (negb (DeepEqual value operand)))
    /\ checkCondition (VInt Int 5) "neq" (VString "5") = Ok true.
Proof.
  intros value operand. unfold checkCondition. simpl.
  repeat split.
  - intros Hne.
    destruct (GoType_eqb (TypeOf value) (TypeOf operand)) eqn:E; [|reflexivity].
    apply GoType_eqb_eq in E. contradiction.
  - intros He. apply GoType_eqb_eq in He. now rewrite He.
Qed.

Lemma C8_neq_type_mismatch_witness :
  checkCondition (VInt Int 5) "neq" (VNum 5) = Ok true
  /\ checkCondition (VString "5") "neq" (VString "5") = Ok false.
Proof.
  split.
  - apply (proj1 (C8_neq_type_mismatch (VInt Int 5) (VNum 5))).
    simpl. discriminate.
  - apply (proj1 (proj2 (C8_neq_type_mismatch (VString "5") (VString "5")))).
    reflexivity.
Defined.

(** On the kinds that the guard of [checkCondition] lets through, the
    ordering operators compare the two sides as [float64]. *)
Lemma ordering_on_int_and_float64 (value operand : Value) :
  (String.eqb (Kind_String value) "int"
   || String.eqb (Kind_String value) "float64") = true ->
  (String.eqb (Kind_String operand) "int"
   || String.eqb (Kind_String operand) "float64") = true ->
  exists x y,
    convertToFloat64 value = Ok x /\ convertToFloat64 operand = Ok y
    /\ checkCondition value "lt" operand = Ok (SFltb x y)
    /\ checkCondition value "lte" operand = Ok (SFleb x y)
    /\ checkCondition value "gt" operand = Ok (SFltb y x)
    /\ checkCondition value "gte" operand = Ok (SFleb y x).
Proof.
  intros Hv Ho.
  destruct value as [| |[] n|[] n| | | | |]; try discriminate Hv;
    destruct operand as [| |[] n'|[] n'| | | | |]; try discriminate Ho;
    eexists; eexists; repeat split.
Qed.

(** C6.  The operators [lt], [lte], [gt] and [gte] do not accept every
    numeric representation: the guard reads the kinds ["int"] and
    ["float64"] only, and its [||] takes in an [int] value with any
    operand.  A [float64] against an [int64] is refused although both
    sides are numeric; an [int] against a string fails in the conversion,
    with the error of an unsupported numeric type; an [int] against nil is
    a fault. *)
Theorem C6_ordering_guard :
  (isNumeric (VNum 1) = true /\ isNumeric (VInt Int64 0) = true
   /\ checkCondition (VNum 1) "gt" (VInt Int64 0)
      = Err (EComparisonNotSupported "gt"))
  /\ (isNumeric (VString "x") = false
      /\ checkCondition (VInt Int 1) "gt" (VString "x")
         = Err EUnsupportedNumericType
      /\ kind_of EUnsupportedNumericType <> UnsupportedComparison)
  /\ checkCondition (VInt Int 1) "gt" VNil = Panic FZeroValue.
Proof.
  repeat split; try reflexivity. discriminate.
Qed.

(** The closure [evaluate] never returns the error of a recursive call:
    on a map or a slice it ends with [nil] or with a fault. *)
Lemma evaluate_container_no_error (conditions : Conditions) (current : Value)
    (currentPath : string) (results : list string) :
  (exists mp, current = VMap mp) \/ (exists l, current = VSlice l) ->
  forall e, fst (evaluate conditions current currentPath results) <> Err e.
Proof.
  intros [[mp ->]|[l ->]] e; simpl.
  - revert results. induction mp as [|[k v] r IH]; intros results.
    + discriminate.
    + unfold discard at 1.
      destruct (evaluate conditions v _ results) as [[u|e'|p] res];
        try apply IH; simpl; discriminate.
  - generalize 0%nat. revert results.
    induction l as [|v r IH]; intros results i.
    + discriminate.
    + unfold discard at 1.
      destruct (evaluate conditions v _ results) as [[u|e'|p] res];
        try apply IH; simpl; discriminate.
Qed.

(** C5.  The evaluation of the condition fails on the leaf [a], with an
    unsupported operator, and the search from the root returns no error
    and no path: the recursive call of [evaluate] drops the error.  The
    same search started on the leaf itself returns the error. *)
Theorem C5_nested_error_dropped :
  let j := mkJsonMapper [("a", VNum 1)] in
  let conditions := CondFlat [("foo", VNum 1)] in
  evaluateCondition (VNum 1) conditions = Err (EUnsupportedOperation "foo")
  /\ FindAllWithCondition j "" conditions = Ok []
  /\ FindAllWithCondition j "a" conditions = Err (EUnsupportedOperation "foo").
Proof. repeat split; reflexivity. Qed.

(** [Find] has no fault. *)
Lemma Find_loop_no_panic (keys : list string) :
  forall (current : Value) (p : fault), Find_loop current keys <> Panic p.
Proof.
  induction keys as [|key rest IH]; intros current p; simpl.
  - discriminate.
  - destruct current; try discriminate.
    + destruct (Atoi key) as [index [err|]]; try discriminate.
      destruct (_ || _); [discriminate | apply IH].
    + destruct (mget key mp); [apply IH | discriminate].
Qed.

(** Neither has [Remove]. *)
Lemma Remove_loop_no_panic (keys rest : list string) :
  forall (current : Trail) (parent : option Trail) (parentKey : string)
         (j : JsonMapper) (p : fault),
    fst (Remove_loop keys rest current parent parentKey j) <> Panic p.
Proof.
  induction rest as [|key rest' IH]; intros current parent parentKey j p.
  - simpl. unfold Remove_end. destruct parent; discriminate.
  - cbn [Remove_loop]. destruct rest' as [|next rest''].
    + unfold Remove_end. destruct parent; discriminate.
    + destruct (index_map j current key); try discriminate.
      * destruct (Atoi next) as [index0 err].
        destruct (_ || _); [discriminate|].
        destruct rest''; [discriminate|].
        destruct (nth _ l VNil); try discriminate. apply IH.
      * apply IH.
Qed.

(** C2.  [Add] does abort.  On [{"a":[1,2]}] the depth-2 paths ["a.-1"]
    and ["a[0]"] reach the re-attachment with [i = 1], where the slice
    expression [keys[1 : i-1]] is [keys[1:0]].  On [{"a":[{"b":1}]}] the
    path ["a.0.b"] asserts that the slice under ["a"] is a map, and on
    [{"a":1}] the path ["a.b.c"] asserts it of the number. *)
Theorem C2_Add_panics :
  let seq := mkJsonMapper [("a", VSlice [VNum 1; VNum 2])] in
  fst (Add seq "a.-1" (VNum 3)) = Panic (FSliceBounds 1 0)
  /\ fst (Add seq "a[0]" (VNum 3)) = Panic (FSliceBounds 1 0)
  /\ fst (Add (mkJsonMapper [("a", VSlice [VMap [("b", VNum 1)]])])
            "a.0.b" (VNum 2)) = Panic FTypeAssertion
  /\ fst (Add (mkJsonMapper [("a", VNum 1)]) "a.b.c" (VNum 2))
     = Panic FTypeAssertion.
Proof. repeat split; reflexivity. Qed.

(** A fault of the search: an [int] that [Add] has put in the document,
    compared by [gt] with a nil operand. *)
Example FindAllWithCondition_panics :
  let j := snd (Add (mkJsonMapper []) "a" (VInt Int 40)) in
  FindAllWithCondition j "" (CondFlat [("gt", VNil)]) = Panic FZeroValue.
Proof. reflexivity. Qed.

(** C4, as the specification words it: the paths of the result do not
    start at the keys of ["a"]. *)
Lemma C4_counterexample :
  FindAllWithCondition (scenario_removed false) "a" gt_25
  <> Ok ["c[1]"; "c[2]"].
Proof. vm_compute. discriminate. Qed.

(** C4.  The scenario, for either order of iteration of the keys of
    ["a"]: [Find("a.c[1]")] is 20; [Add("a.c[-1]", 40)] makes [a.c]
    [[10,20,30,40]]; [Remove("a.c.0")] makes it [[20,30,40]]; the search
    from ["a"] for [gt 25] returns ["a.c[1]"] and ["a.c[2]"], in the order
    of the sequence and with the start path in front. *)
Theorem C4_scenario :
  forall c_first : bool,
    Find (scenario c_first) "a.c[1]" = Ok (VNum 20)
    /\ fst (Add (scenario c_first) "a.c[-1]" (VInt Int 40)) = Ok tt
    /\ Find (scenario_added c_first) "a.c"
       = Ok (VSlice [VNum 10; VNum 20; VNum 30; VInt Int 40])
    /\ fst (Remove (scenario_added c_first) "a.c.0") = Ok tt
    /\ Find (scenario_removed c_first) "a.c"
       = Ok (VSlice [VNum 20; VNum 30; VInt Int 40])
    /\ FindAllWithCondition (scenario_removed c_first) "a" gt_25
       = Ok ["a.c[1]"; "a.c[2]"].
Proof. intros []; repeat split; vm_compute; reflexivity. Qed.

(* ================================================================== *)
(** ** Lookup and update along a trail *)
(* ================================================================== *)

Section TrailFacts.

Lemma mget_malter_same (k : string) (g : Value -> Value) (mp : Mapping) :
  mget k (malter k g mp) = option_map g (mget k mp).
Proof.
  induction mp as [|[k' v'] r IH]; simpl; [reflexivity|].
  destruct (String.eqb k k') eqn:E; simpl; rewrite E; auto.
Qed.

Lemma mget_mset_same (k : string) (v : Value) (mp : Mapping) :
  mget k (mset k v mp) = Some v.
Proof.
  induction mp as [|[k' v'] r IH]; simpl.
  - now rewrite String.eqb_refl.
  - destruct (String.eqb k k') eqn:E; simpl; rewrite E; auto.
Qed.

Lemma nth_error_lalter_same (g : Value -> Value) (l : list Value) :
  forall n, nth_error (lalter n g l) n = option_map g (nth_error l n).
Proof.
  induction l as [|x r IH]; intros [|n]; simpl; auto.
Qed.

Lemma length_lalter (g : Value -> Value) (l : list Value) :
  forall n, List.length (lalter n g l) = List.length l.
Proof.
  induction l as [|x r IH]; intros [|n]; simpl; auto.
Qed.

Lemma get_at_app (p q : Trail) :
  forall v,
    get_at v (p ++ q) =
    match get_at v p with
    | Some v' => get_at v' q
    | None => None
    end.
Proof.
  induction p as [|[k|n] p IH]; intros v; simpl; [reflexivity| |].
  - destruct v; try reflexivity. destruct (mget k mp); auto.
  - destruct v; try reflexivity. destruct (nth_error l n); auto.
Qed.

(** A node on the way to an update is updated below itself. *)
Lemma get_upd_at (p q : Trail) (f : Value -> Value) :
  forall v x,
    get_at v p = Some x ->
    get_at (upd_at v (p ++ q) f) p = Some (upd_at x q f).
Proof.
  induction p as [|[k|n] p IH]; intros v x H; simpl in *.
  - now injection H as ->.
  - destruct v; try discriminate.
    destruct (mget k mp) as [v'|] eqn:E; [|discriminate].
    rewrite mget_malter_same, E. simpl. auto.
  - destruct v; try discriminate.
    destruct (nth_error l n) as [v'|] eqn:E; [|discriminate].
    rewrite nth_error_lalter_same, E. simpl. auto.
Qed.

Lemma get_upd_at_same (p : Trail) (f : Value -> Value) (v x : Value) :
  get_at v p = Some x -> get_at (upd_at v p f) p = Some (f x).
Proof.
  intros H. pose proof (@get_upd_at p [] f v x H) as G.
  now rewrite app_nil_r in G.
Qed.

(** The root stays a map under every update below it, and under an
    update of the root that keeps maps. *)
Lemma root_store (j : JsonMapper) (p : Trail) (f : Value -> Value) :
  p <> [] \/ (forall mp0, exists mp1, f (VMap mp0) = VMap mp1) ->
  root (store j p f) = upd_at (root j) p f.
Proof.
  intros H. unfold store, root. destruct p as [|[k|n] p]; simpl.
  - destruct H as [H|H]; [congruence|].
    destruct (H (m j)) as [mp1 ->]. reflexivity.
  - reflexivity.
  - destruct j; reflexivity.
Qed.

Lemma assign_keeps_map (k : string) (x : Value) :
  forall mp0, exists mp1, assign k x (VMap mp0) = VMap mp1.
Proof. intros mp0. simpl. eauto. Qed.

(** After [node[k] = x] on the map at [p], the entry [k] of that map
    is [x]. *)
Lemma deref_store_assign (j : JsonMapper) (p : Trail) (k : string)
    (x : Value) (mp : Mapping) :
  deref j p = Some (VMap mp) ->
  deref (store j p (assign k x)) (p ++ [Key k]) = Some x.
Proof.
  intros H. unfold deref in *.
  rewrite root_store by (right; apply assign_keeps_map).
  rewrite get_at_app, (@get_upd_at_same p (assign k x) _ _ H). simpl.
  now rewrite mget_mset_same.
Qed.

(** [Find] follows the keys of nested maps like a trail of [Key]s. *)
Lemma Find_loop_along (ks rest : list string) :
  forall v v',
    get_at v (map Key ks) = Some v' ->
    Find_loop v (ks ++ rest) = Find_loop v' rest.
Proof.
  induction ks as [|k ks IH]; intros v v' H; simpl in *.
  - now injection H as ->.
  - destruct v; try discriminate.
    destruct (mget k mp) as [x|]; [|discriminate]. auto.
Qed.

Lemma splice_length (i : nat) (s : list Value) :
  (i < List.length s)%nat ->
  List.length (splice i s) = (List.length s - 1)%nat.
Proof.
  intros H. unfold splice.
  rewrite length_app, length_firstn, length_skipn. lia.
Qed.

(** The elements before the removed one stay in place, the others move
    down by one. *)
Lemma splice_nth_error (i : nat) (s : list Value) :
  (i < List.length s)%nat ->
  forall n,
    nth_error (splice i s) n
    = nth_error s (if (n <? i)%nat then n else S n).
Proof.
  intros H n. unfold splice.
  destruct (n <? i)%nat eqn:E.
  - apply Nat.ltb_lt in E.
    rewrite nth_error_app1 by (rewrite length_firstn; lia).
    rewrite nth_error_firstn.
    apply Nat.ltb_lt in E. now rewrite E.
  - apply Nat.ltb_ge in E.
    rewrite nth_error_app2 by (rewrite length_firstn; lia).
    rewrite length_firstn, Nat.min_l by lia.
    rewrite nth_error_skipn. f_equal. lia.
Qed.

End TrailFacts.

(* ================================================================== *)
(** ** Properties of [Remove] *)
(* ================================================================== *)

Section RemoveFacts.

Variable j : JsonMapper.
Variable keys : list string.

(** The loop, once its descent has reached the last two keys, goes on
    from there. *)
Lemma Remove_loop_at_walk (rest : list string) :
  forall (current : Trail) (parent : option Trail) (parentKey : string)
         (c : Trail) (k t : string),
    Remove_walk j rest current = Some (c, k, t) ->
    Remove_loop keys rest current parent parentKey j
    = Remove_loop keys [k; t] c parent parentKey j.
Proof.
  induction rest as [|key rest' IH]; intros current parent parentKey c k t H.
  - discriminate.
  - cbn [Remove_walk] in H. destruct rest' as [|next rest'']; [discriminate|].
    destruct rest'' as [|x rest3].
    + now injection H as -> -> ->.
    + cbn [Remove_loop].
      destruct (index_map j current key); try discriminate.
      * destruct (Atoi next) as [index0 err].
        destruct (_ || _); [discriminate|].
        destruct (nth _ l VNil); try discriminate. now apply IH.
      * now apply IH.
Qed.

Lemma Remove_walk_map_step (key next y : string) (rest3 : list string)
    (current : Trail) (mp : Mapping) :
  index_map j current key = VMap mp ->
  Remove_walk j (key :: next :: y :: rest3) current
  = Remove_walk j (next :: y :: rest3) (current ++ [Key key]).
Proof. intros H. cbn [Remove_walk]. rewrite H. reflexivity. Qed.

(** Through the keys of nested maps the descent is the trail of those
    keys. *)
Lemma Remove_walk_along (pre : list string) (k t : string) :
  forall (current : Trail) (x : Value),
    deref j (current ++ map Key (pre ++ [k])) = Some x ->
    Remove_walk j (pre ++ [k; t]) current
    = Some (current ++ map Key pre, k, t).
Proof.
  induction pre as [|key pre IH]; intros current x H.
  - simpl. now rewrite app_nil_r.
  - change ((key :: pre) ++ [k; t]) with (key :: (pre ++ [k; t])).
    assert (E1 : exists next y rest3, pre ++ [k; t] = next :: y :: rest3).
    { destruct pre as [|a [|b pre']]; simpl; eauto. }
    destruct E1 as (next & y & rest3 & E1).
    assert (Hstep : exists mp, index_map j current key = VMap mp).
    { unfold deref in H. simpl in H. rewrite get_at_app in H.
      unfold index_map, deref.
      destruct (get_at (root j) current) as [node|]; [|discriminate].
      simpl in H. destruct node; try discriminate.
      destruct (mget key mp) as [v|]; [|discriminate].
      destruct pre as [|key2 pre']; simpl in H.
      - destruct v; try discriminate. eauto.
      - destruct v; try discriminate. eauto. }
    destruct Hstep as [mp Hmp].
    rewrite E1, (@Remove_walk_map_step key next y rest3 current mp Hmp), <- E1.
    rewrite (IH (current ++ [Key key]) x).
    + now rewrite <- app_assoc.
    + rewrite <- app_assoc. exact H.
Qed.

(** What the iteration [i == len(keys)-2] does on a slice. *)
Lemma Remove_loop_splice (c : Trail) (k t : string) (s : list Value)
    (parent : option Trail) (parentKey : string) (i : nat) :
  index_map j c k = VSlice s ->
  (i < List.length s)%nat ->
  (Atoi t = (Z.of_nat i, None)
   \/ (i = 0%nat /\ snd (Atoi t) = Some ErrSyntax)
   \/ (S i = List.length s /\ Atoi t = (-1, None))) ->
  Remove_loop keys [k; t] c parent parentKey j
  = (Ok tt, store j c (assign k (VSlice (splice i s)))).
Proof.
  intros Hs Hi Ht. cbn [Remove_loop]. rewrite Hs.
  assert (Hidx :
    (let (index0, err) := Atoi t in
     match err with
     | None => if index0 =? -1 then Z.of_nat (List.length s) - 1 else index0
     | Some _ => index0
     end) = Z.of_nat i).
  { destruct Ht as [Ht|[[-> Ht]|[Hl Ht]]].
    - rewrite Ht. destruct (Z.of_nat i =? -1) eqn:E; [|reflexivity].
      apply Z.eqb_eq in E. lia.
    - unfold Atoi in *. destruct t as [|ch r]; [reflexivity|].
      destruct (ParseUint _) as [un [[|]|]]; simpl in *.
      + reflexivity.
      + repeat match goal with
               | H : snd (if ?b then _ else _) = _ |- _ =>
                   destruct b; simpl in H; try discriminate
               end.
      + repeat match goal with
               | H : snd (if ?b then _ else _) = _ |- _ =>
                   destruct b; simpl in H; try discriminate
               end.
    - rewrite Ht. simpl. lia. }
  destruct (Atoi t) as [index0 err]. rewrite Hidx.
  replace ((Z.of_nat i <? 0) || (Z.of_nat (List.length s) <=? Z.of_nat i))
    with false.
  - now rewrite Nat2Z.id.
  - symmetry. apply orb_false_iff. split; [apply Z.ltb_ge|apply Z.leb_gt]; lia.
Qed.

Lemma index_map_deref (c : Trail) (k : string) (s : list Value) :
  index_map j c k = VSlice s ->
  exists mp, deref j c = Some (VMap mp) /\ mget k mp = Some (VSlice s).
Proof.
  unfold index_map. intros H.
  destruct (deref j c) as [[]|]; try discriminate.
  destruct (mget k mp) as [v|] eqn:E; [|discriminate].
  subst v. eauto.
Qed.

Lemma index_map_store_assign (c : Trail) (k : string) (x : Value)
    (mp : Mapping) :
  deref j c = Some (VMap mp) ->
  index_map (store j c (assign k x)) c k = x.
Proof.
  intros Hd. pose proof (@deref_store_assign j c k x mp Hd) as G.
  unfold index_map. unfold deref in G |- *. rewrite get_at_app in G.
  destruct (get_at (root (store j c (assign k x))) c) as [node|];
    [|discriminate].
  simpl in G. destruct node; try discriminate.
  destruct (mget k mp0); [|discriminate]. now injection G as ->.
Qed.

End RemoveFacts.

(** [Remove] at an in-range index [i] of the sequence [s] that its walk
    reaches: the sequence that replaces [s] has one element less and
    holds the elements of [s] other than the [i]-th in their order; it
    is stored in the map through which [s] was reached, under the same
    key. *)
Lemma Remove_index_at_walk :
  forall (j : JsonMapper) (keyPath : string) (c : Trail) (k t : string)
         (s : list Value) (i : nat),
    Remove_walk j (keys_of keyPath) [] = Some (c, k, t) ->
    index_map j c k = VSlice s ->
    Atoi t = (Z.of_nat i, None) ->
    (i < List.length s)%nat ->
    exists j' : JsonMapper,
      Remove j keyPath = (Ok tt, j')
      /\ j' = store j c (assign k (VSlice (splice i s)))
      /\ index_map j' c k = VSlice (splice i s)
      /\ List.length (splice i s) = (List.length s - 1)%nat
      /\ forall n : nat,
          nth_error (splice i s) n
          = nth_error s (if (n <? i)%nat then n else S n).
Proof.
  intros j keyPath c k t s i Hw Hs Ht Hi.
  exists (store j c (assign k (VSlice (splice i s)))).
  split; [|split; [reflexivity|split; [|split]]].
  - unfold Remove. erewrite Remove_loop_at_walk by exact Hw.
    apply Remove_loop_splice; auto.
  - destruct (@index_map_deref j c k s Hs) as [mp [Hd _]].
    exact (@index_map_store_assign j c k _ mp Hd).
  - now apply splice_length.
  - now apply splice_nth_error.
Qed.

(** X29.  [Remove] at an in-range index [i] of a sequence [s] that the
    keys before the last reach through nested maps: [Remove] returns
    nil; the sequence found afterwards at the same keys has one element
    less and holds the elements of [s] other than the [i]-th in their
    order. *)
Theorem Remove_index_under_maps :
  forall (j : JsonMapper) (keyPath : string) (pre : list string)
         (k t : string) (s : list Value) (i : nat),
    keys_of keyPath = pre ++ [k; t] ->
    deref j (map Key (pre ++ [k])) = Some (VSlice s) ->
    Atoi t = (Z.of_nat i, None) ->
    (i < List.length s)%nat ->
    exists j' : JsonMapper,
      Remove j keyPath = (Ok tt, j')
      /\ deref j' (map Key (pre ++ [k])) = Some (VSlice (splice i s))
      /\ List.length (splice i s) = (List.length s - 1)%nat
      /\ forall n : nat,
          nth_error (splice i s) n
          = nth_error s (if (n <? i)%nat then n else S n).
Proof.
  intros j keyPath pre k t s i Hk Hd Ht Hi.
  assert (Hw : Remove_walk j (keys_of keyPath) [] = Some (map Key pre, k, t)).
  { rewrite Hk.
    exact (@Remove_walk_along j pre k t [] (VSlice s) Hd). }
  assert (Hc : exists mp, deref j (map Key pre) = Some (VMap mp)
                          /\ mget k mp = Some (VSlice s)).
  { unfold deref in *. rewrite map_app, get_at_app in Hd. simpl in Hd.
    destruct (get_at (root j) (map Key pre)) as [[]|]; try discriminate.
    destruct (mget k mp) as [v|] eqn:E; [|discriminate].
    injection Hd as ->. eauto. }
  destruct Hc as [mp [Hmp Hget]].
  assert (Hs : index_map j (map Key pre) k = VSlice s).
  { unfold index_map. now rewrite Hmp, Hget. }
  destruct (Remove_index_at_walk _ _ Hw Hs Ht Hi)
    as (j' & Hr & Hj' & _ & Hlen & Hnth).
  exists j'. split; [exact Hr|]. split; [|split; assumption].
  rewrite Hj', map_app.
  exact (@deref_store_assign j (map Key pre) k _ mp Hmp).
Qed.

Lemma Remove_index_under_maps_witness :
  exists j' : JsonMapper,
    Remove (scenario false) "a.c[1]" = (Ok tt, j')
    /\ deref j' (map Key (["a"] ++ ["c"]))
       = Some (VSlice (splice 1 [VNum 10; VNum 20; VNum 30]))
    /\ List.length (splice 1 [VNum 10; VNum 20; VNum 30]) = (3 - 1)%nat
    /\ forall n : nat,
        nth_error (splice 1 [VNum 10; VNum 20; VNum 30]) n
        = nth_error [VNum 10; VNum 20; VNum 30]
            (if (n <? 1)%nat then n else S n).
Proof.
  apply (@Remove_index_under_maps (scenario false) "a.c[1]" ["a"] "c" "1"
           [VNum 10; VNum 20; VNum 30] 1).
  - reflexivity.
  - reflexivity.
  - reflexivity.
  - simpl. lia.
Defined.

(** The document [{"a":[{"c":[1,2,3]}]}]: a sequence in a map that is
    an element of a sequence. *)
Example sequence_below_element :
  let j := mkJsonMapper
             [("a", VSlice [VMap [("c", VSlice [VNum 1; VNum 2; VNum 3])]])] in
  Find j "a[0].c" = Ok (VSlice [VNum 1; VNum 2; VNum 3])
  /\ Find j "a[0].c[1]" = Ok (VNum 2).
Proof. split; reflexivity. Qed.

(** C9.  [Remove] does not remove from every sequence.  On
    [{"a":[{"c":[1,2,3]}]}] the path ["a[0].c[1]"] names the in-range
    index 1 of the sequence under ["c"], which [Find] reads.  [Remove]
    steps from the sequence under ["a"] into its element 0 and then
    looks the index key ["0"] up again, as a key of that element: it
    returns the error of an unexpected type and removes nothing. *)
Theorem C9_remove_below_sequence_element :
  let j := mkJsonMapper
             [("a", VSlice [VMap [("c", VSlice [VNum 1; VNum 2; VNum 3])]])] in
  Find j "a[0].c[1]" = Ok (VNum 2)
  /\ Remove j "a[0].c[1]" = (Err (EUnexpectedType "0"), j)
  /\ Remove_walk j (keys_of "a[0].c[1]") [] = None.
Proof. repeat split; reflexivity. Qed.

(** A syntax error of [strconv.Atoi] comes with the value 0. *)
Lemma Atoi_syntax_zero (t : string) :
  snd (Atoi t) = Some ErrSyntax -> fst (Atoi t) = 0.
Proof.
  unfold Atoi. destruct t as [|ch r]; [reflexivity|].
  destruct (ParseUint _) as [un [[|]|]]; simpl; intros H.
  - reflexivity.
  - repeat match goal with
           | H : snd (if ?b then _ else _) = _ |- _ =>
               destruct b; simpl in H; try discriminate
           end.
  - repeat match goal with
           | H : snd (if ?b then _ else _) = _ |- _ =>
               destruct b; simpl in H; try discriminate
           end.
Qed.

(** C10, as the specification words it, fails on two inputs.  The token
    ["99999999999999999999x"] is not an integer, but the parse stops at
    the overflow before it sees the [x]: the index is the largest [int]
    and [Remove] returns the out-of-range error.  And on
    [{"a":[{"c":[1,2,3]}]}] the path ["a[0].c.foo"] has a non-empty
    sequence at its last step but one, which [Remove] does not reach. *)
Lemma C10_counterexample :
  (Atoi "99999999999999999999x" = (MaxInt64, Some ErrRange)
   /\ Find (scenario false) "a.c" = Ok (VSlice [VNum 10; VNum 20; VNum 30])
   /\ Remove (scenario false) "a.c.99999999999999999999x"
      = (Err (ERemoveIndexOutOfRange MaxInt64), scenario false))
  /\ (let j := mkJsonMapper
                 [("a", VSlice [VMap [("c", VSlice [VNum 1; VNum 2; VNum 3])]])]
      in
      Find j "a[0].c" = Ok (VSlice [VNum 1; VNum 2; VNum 3])
      /\ Remove j "a[0].c.foo" = (Err (EUnexpectedType "0"), j)).
Proof. repeat split; reflexivity. Qed.

(** C10.  When the keys of the path before the last lead through nested
    maps to a non-empty sequence and [strconv.Atoi] rejects the last key
    with a syntax error, [Remove] returns no error: the index stays 0
    and the first element of the sequence is removed. *)
Theorem C10_remove_non_integer_token :
  forall (j : JsonMapper) (keyPath : string) (pre : list string)
         (k t : string) (s : list Value),
    keys_of keyPath = pre ++ [k; t] ->
    deref j (map Key (pre ++ [k])) = Some (VSlice s) ->
    s <> [] ->
    snd (Atoi t) = Some ErrSyntax ->
    exists j' : JsonMapper,
      Remove j keyPath = (Ok tt, j')
      /\ fst (Atoi t) = 0
      /\ j' = store j (map Key pre) (assign k (VSlice (tl s)))
      /\ deref j' (map Key (pre ++ [k])) = Some (VSlice (tl s)).
Proof.
  intros j keyPath pre k t s Hk Hd Hne Ht.
  assert (Hsp : splice 0 s = tl s) by (destruct s; reflexivity).
  assert (Hlen : (0 < List.length s)%nat)
    by (destruct s; simpl; [congruence|lia]).
  assert (Hc : exists mp, deref j (map Key pre) = Some (VMap mp)
                          /\ mget k mp = Some (VSlice s)).
  { unfold deref in *. rewrite map_app, get_at_app in Hd. simpl in Hd.
    destruct (get_at (root j) (map Key pre)) as [[]|]; try discriminate.
    destruct (mget k mp) as [v|] eqn:E; [|discriminate].
    injection Hd as ->. eauto. }
  destruct Hc as [mp [Hmp Hget]].
  assert (Hs : index_map j (map Key pre) k = VSlice s).
  { unfold index_map. now rewrite Hmp, Hget. }
  exists (store j (map Key pre) (assign k (VSlice (tl s)))).
  split; [|split; [now apply Atoi_syntax_zero|split; [reflexivity|]]].
  - unfold Remove. rewrite Hk.
    erewrite Remove_loop_at_walk
      by (apply (@Remove_walk_along j pre k t [] (VSlice s)); exact Hd).
    rewrite <- Hsp. apply Remove_loop_splice; auto.
  - rewrite map_app.
    exact (@deref_store_assign j (map Key pre) k _ mp Hmp).
Qed.

Lemma C10_remove_non_integer_token_witness :
  exists j' : JsonMapper,
    Remove (scenario false) "a.c.foo" = (Ok tt, j')
    /\ fst (Atoi "foo") = 0
    /\ j' = store (scenario false) (map Key ["a"])
              (assign "c" (VSlice (tl [VNum 10; VNum 20; VNum 30])))
    /\ deref j' (map Key (["a"] ++ ["c"]))
       = Some (VSlice (tl [VNum 10; VNum 20; VNum 30])).
Proof.
  apply (@C10_remove_non_integer_token (scenario false) "a.c.foo" ["a"] "c"
           "foo" [VNum 10; VNum 20; VNum 30]).
  - reflexivity.
  - reflexivity.
  - discriminate.
  - reflexivity.
Defined.

(** The iteration [i == len(keys)-2] on a slice, for a last key that is
    the text of an integer. *)
Lemma Remove_loop_on_slice (j : JsonMapper) (keys : list string) (c : Trail)
    (k t : string) (s : list Value) (z : Z) (parent : option Trail)
    (parentKey : string) :
  index_map j c k = VSlice s ->
  Atoi t = (z, None) ->
  Remove_loop keys [k; t] c parent parentKey j
  = let len := Z.of_nat (List.length s) in
    let index := if z =? -1 then len - 1 else z in
    if (index <? 0) || (len <=? index)
    then (Err (ERemoveIndexOutOfRange index), j)
    else (Ok tt, store j c (assign k (VSlice (splice (Z.to_nat index) s)))).
Proof. intros Hs Ht. cbn [Remove_loop]. rewrite Hs, Ht. reflexivity. Qed.

Lemma keys_of_empty : keys_of "" = [""].
Proof. reflexivity. Qed.

(** C3, as the specification words it: after the removal of an element
    that is not the last of its sequence, [Find] at the same path returns
    the element that has moved into its place. *)
Lemma C3_counterexample :
  ~ (forall j' : JsonMapper,
       Remove (scenario false) "a.c.0" = (Ok tt, j') ->
       exists e, Find j' "a.c.0" = Err e
                 /\ (kind_of e = KeyNotFound \/ kind_of e = IndexOutOfRange)).
Proof.
  intros H.
  destruct (H (snd (Remove (scenario false) "a.c.0")) eq_refl) as [e [He _]].
  vm_compute in He. discriminate.
Qed.

(** The other removals of [Remove]: a path of one key deletes nothing,
    and a path of two keys or more deletes its last key from the map that
    holds the last but one key, not from the map under it. *)
Example Remove_map_key :
  let j := mkJsonMapper [("a", VMap [("b", VNum 1)]); ("b", VNum 2)] in
  Remove j "b" = (Ok tt, j)
  /\ Remove j "a.b" = (Ok tt, mkJsonMapper [("a", VMap [("b", VNum 1)])])
  /\ Find (snd (Remove j "a.b")) "a.b" = Ok (VNum 1).
Proof. repeat split; reflexivity. Qed.

(** C3.  Let the keys of the path before the last one lead through nested
    maps to a sequence [s], and let the last key be the text of the
    integer [z].  If [Remove] succeeds then [Find] at the same path fails
    with an index out of range when the removed element was the last one
    ([z] is -1 or the last index), and otherwise returns the element that
    followed the removed one. *)
Theorem C3_remove_then_find :
  forall (j j' : JsonMapper) (keyPath : string) (pre : list string)
         (k t : string) (s : list Value) (z : Z),
    keys_of keyPath = pre ++ [k; t] ->
    deref j (map Key (pre ++ [k])) = Some (VSlice s) ->
    Atoi t = (z, None) ->
    Remove j keyPath = (Ok tt, j') ->
    let len := Z.of_nat (List.length s) in
    if (z =? -1) || (z =? len - 1)
    then exists e, Find j' keyPath = Err e /\ kind_of e = IndexOutOfRange
    else Find j' keyPath = Ok (nth (S (Z.to_nat z)) s VNil).
Proof.
  intros j j' keyPath pre k t s z Hk Hd Ht Hr len.
  (* the map that holds the sequence *)
  assert (Hc : exists mp, deref j (map Key pre) = Some (VMap mp)
                          /\ mget k mp = Some (VSlice s)).
  { unfold deref in *. rewrite map_app, get_at_app in Hd. simpl in Hd.
    destruct (get_at (root j) (map Key pre)) as [[]|]; try discriminate.
    destruct (mget k mp) as [v|] eqn:E; [|discriminate].
    injection Hd as ->. eauto. }
  destruct Hc as [mp [Hmp Hget]].
  assert (Hs : index_map j (map Key pre) k = VSlice s).
  { unfold index_map. now rewrite Hmp, Hget. }
  (* what Remove did *)
  unfold Remove in Hr. rewrite Hk in Hr.
  erewrite Remove_loop_at_walk in Hr
    by (apply (@Remove_walk_along j pre k t [] (VSlice s)); exact Hd).
  simpl app in Hr.
  rewrite (@Remove_loop_on_slice j _ _ k t s z None "" Hs Ht) in Hr.
  cbv zeta in Hr. fold len in Hr.
  set (index := if z =? -1 then len - 1 else z) in *.
  destruct ((index <? 0) || (len <=? index)) eqn:Hrange; [discriminate|].
  apply orb_false_iff in Hrange as [Hlo Hhi].
  apply Z.ltb_ge in Hlo. apply Z.leb_gt in Hhi.
  injection Hr as <-.
  set (s' := splice (Z.to_nat index) s) in *.
  assert (Hlen' : Z.of_nat (List.length s') = len - 1).
  { unfold s'. rewrite splice_length; unfold len in *; lia. }
  (* what Find sees *)
  assert (HP : String.eqb keyPath "" = false).
  { apply String.eqb_neq. intros ->. rewrite keys_of_empty in Hk.
    destruct pre as [|a [|b pre']]; discriminate. }
  assert (HF : Find (store j (map Key pre) (assign k (VSlice s'))) keyPath
               = Find_loop (VSlice s') [t]).
  { unfold Find. rewrite HP, Hk.
    change (pre ++ [k; t]) with (pre ++ [k] ++ [t]). rewrite app_assoc.
    apply Find_loop_along. rewrite map_app.
    exact (@deref_store_assign j (map Key pre) k (VSlice s') mp Hmp). }
  rewrite HF. simpl. rewrite Ht, Hlen'.
  destruct ((z =? -1) || (z =? len - 1)) eqn:Hz.
  - replace ((z <? 0) || (len - 1 <=? z)) with true.
    + eexists. split; reflexivity.
    + symmetry. apply orb_true_iff. apply orb_true_iff in Hz.
      destruct Hz as [Hz|Hz]; apply Z.eqb_eq in Hz; rewrite Hz;
        [left; reflexivity|right; apply Z.leb_refl].
  - apply orb_false_iff in Hz as [Hz1 Hz2].
    apply Z.eqb_neq in Hz1. apply Z.eqb_neq in Hz2.
    assert (Hi : index = z).
    { unfold index. destruct (z =? -1) eqn:E; [|reflexivity].
      apply Z.eqb_eq in E. lia. }
    replace ((z <? 0) || (len - 1 <=? z)) with false
      by (symmetry; apply orb_false_iff;
          split; [apply Z.ltb_ge|apply Z.leb_gt]; lia).
    f_equal. unfold s'. rewrite Hi.
    apply nth_error_nth.
    rewrite splice_nth_error by (unfold len in *; lia).
    rewrite Nat.ltb_irrefl.
    apply nth_error_nth'. unfold len in *. lia.
Qed.

Lemma C3_remove_then_find_witness :
  Find (snd (Remove (scenario false) "a.c[1]")) "a.c[1]" = Ok (VNum 30)
  /\ exists e,
      Find (snd (Remove (scenario false) "a.c[-1]")) "a.c[-1]" = Err e
      /\ kind_of e = IndexOutOfRange.
Proof.
  split.
  - apply (@C3_remove_then_find (scenario false)
             (snd (Remove (scenario false) "a.c[1]")) "a.c[1]" ["a"] "c" "1"
             [VNum 10; VNum 20; VNum 30] 1); reflexivity.
  - apply (@C3_remove_then_find (scenario false)
             (snd (Remove (scenario false) "a.c[-1]")) "a.c[-1]" ["a"] "c" "-1"
             [VNum 10; VNum 20; VNum 30] (-1)); reflexivity.
Defined.

(* ================================================================== *)
(** ** Properties of [Add] *)
(* ================================================================== *)

Lemma Split_dot_nonempty (s : string) : Split_dot s <> [].
Proof.
  induction s as [|c r IH]; simpl; [discriminate|].
  destruct (Ascii.eqb c "."); [discriminate|].
  destruct (Split_dot r); discriminate.
Qed.

Section AddFacts.

(** A trail that goes on with a key passes through a map. *)
Lemma deref_key_prefix (j : JsonMapper) (p q : Trail) (k : string)
    (x : Value) :
  deref j (p ++ Key k :: q) = Some x ->
  exists mp v,
    deref j p = Some (VMap mp) /\ mget k mp = Some v /\ get_at v q = Some x.
Proof.
  unfold deref. rewrite get_at_app. intros H.
  destruct (get_at (root j) p) as [node|]; [|discriminate].
  simpl in H. destruct node; try discriminate.
  destruct (mget k mp) as [v|] eqn:E; [|discriminate]. eauto.
Qed.

(** The walk of the re-attachment along keys of nested maps. *)
Lemma grandParent_walk_along (j : JsonMapper) (pk : string) (x : Value)
    (mid : list string) :
  forall g : list string,
    deref j (map Key (g ++ mid ++ [pk])) = Some x ->
    grandParent_walk j (Some (map Key g)) mid
    = Ok (Some (map Key (g ++ mid))).
Proof.
  induction mid as [|k mid IH]; intros g H; simpl.
  - now rewrite app_nil_r.
  - assert (Hk : exists mp, deref j (map Key g ++ [Key k]) = Some (VMap mp)).
    { replace (map Key (g ++ (k :: mid) ++ [pk]))
        with ((map Key g ++ [Key k]) ++ map Key mid ++ [Key pk]) in H
        by (rewrite !map_app; simpl; now rewrite <- !app_assoc).
      destruct mid as [|k2 mid']; simpl in H;
        apply deref_key_prefix in H as (mp & v & Hd & _); eauto. }
    destruct Hk as [mp Hk]. rewrite Hk.
    replace (map Key g ++ [Key k]) with (map Key (g ++ [k]))
      by (now rewrite map_app).
    rewrite IH.
    + now rewrite <- app_assoc.
    + rewrite <- app_assoc. exact H.
Qed.

(** The re-attachment, when the slice was reached through the keys
    [init ++ [pk]] of nested maps: it faults for an empty [init], and
    otherwise stores the slice under [pk] in the map at [init]. *)
Lemma reattach_along (j j' : JsonMapper) (init : list string)
    (pk t : string) (x node : Value) :
  deref j (map Key (init ++ [pk])) = Some node ->
  reattach j ((init ++ [pk]) ++ [t]) (List.length (init ++ [pk])) x
  = (Ok tt, j') ->
  init <> [] /\ j' = store j (map Key init) (assign pk x).
Proof.
  intros Hd Hr. unfold reattach in Hr.
  rewrite length_app in Hr. simpl List.length in Hr.
  replace (0 <? List.length init + 1)%nat with true in Hr
    by (symmetry; apply Nat.ltb_lt; lia).
  replace (List.length init + 1 - 1)%nat with (List.length init) in Hr by lia.
  destruct init as [|k0 mid].
  - simpl in Hr. discriminate.
  - split; [discriminate|].
    assert (Hpk : key_at (((k0 :: mid) ++ [pk]) ++ [t])
                    (List.length (k0 :: mid)) = pk).
    { unfold key_at. rewrite <- app_assoc.
      rewrite app_nth2 by lia. now rewrite Nat.sub_diag. }
    rewrite Hpk in Hr. clear Hpk.
    change (key_at (((k0 :: mid) ++ [pk]) ++ [t]) 0) with k0 in Hr.
    assert (H0 : exists mp, deref j [Key k0] = Some (VMap mp)).
    { change (map Key ((k0 :: mid) ++ [pk]))
        with ([Key k0] ++ map Key (mid ++ [pk])) in Hd.
      rewrite map_app in Hd.
      destruct mid as [|k1 mid']; simpl map in Hd;
        apply deref_key_prefix in Hd as (mp & v & Hd & _); eauto. }
    destruct H0 as [mp0 H0]. rewrite H0 in Hr.
    assert (Hs : slice_keys (((k0 :: mid) ++ [pk]) ++ [t]) 1
                   (List.length (k0 :: mid)) = Ok mid).
    { unfold slice_keys. simpl List.length.
      replace (S (List.length mid) <? 1)%nat with false
        by (symmetry; apply Nat.ltb_ge; lia).
      simpl. rewrite Nat.sub_0_r, <- app_assoc.
      now rewrite firstn_app, firstn_all, Nat.sub_diag, app_nil_r. }
    rewrite Hs in Hr.
    change [Key k0] with (map Key [k0]) in Hr.
    rewrite (@grandParent_walk_along j pk node mid [k0]) in Hr by exact Hd.
    now injection Hr as <-.
Qed.

End AddFacts.

Section AddThenFind.

Variable keys : list string.
Variable value : Value.

(** An iteration of the loop of [Add] that is not the last one. *)
Lemma Add_loop_step (i : nat) (key : string) (rest' : list string)
    (current : Trail) (j : JsonMapper) :
  rest' <> [] ->
  Add_loop keys value i (key :: rest') current j
  = match deref j current with
    | Some (VMap mp) =>
        match mget key mp with
        | Some _ =>
            Add_loop keys value (S i) rest' (current ++ [Key key]) j
        | None =>
            match Atoi key with
            | (_, None) => (Err (EAddInvalidArrayIndex key), j)
            | (_, Some _) =>
                Add_loop keys value (S i) rest' (current ++ [Key key])
                  (store j current (assign key (VMap [])))
            end
        end
    | _ => (Panic FTypeAssertion, j)
    end.
Proof. destruct rest'; [congruence|reflexivity]. Qed.

(** The last iteration on a slice reached through nested maps. *)
Lemma Add_last_on_slice (j j' : JsonMapper) (ck : list string) (t : string)
    (parent : list Value) :
  keys = ck ++ [t] ->
  deref j (map Key ck) = Some (VSlice parent) ->
  Add_loop keys value (List.length ck) [t] (map Key ck) j = (Ok tt, j') ->
  if fst (Atoi t) =? -1
  then deref j' (map Key ck) = Some (VSlice (parent ++ [value]))
  else Find_loop (root j') keys = Ok value.
Proof.
  intros Hkeys Hd H.
  destruct (exists_last (l := ck)) as (init & pk & Hck).
  { intros ->. unfold deref, root in Hd. simpl in Hd. discriminate. }
  subst ck. cbn [Add_loop] in H. rewrite Hd in H.
  destruct (Atoi t) as [index [e|]] eqn:Ht; [discriminate|]. simpl fst.
  destruct (deref_key_prefix j (map Key init) [] pk
              (x := VSlice parent)) as (mp & v & Hinit & _).
  { now rewrite map_app in Hd. }
  destruct (index =? -1) eqn:E1.
  - rewrite Hkeys in H.
    destruct (@reattach_along j j' init pk t _ _ Hd H) as [_ ->].
    rewrite map_app. exact (@deref_store_assign j _ pk _ mp Hinit).
  - destruct ((0 <=? index) && (index <? Z.of_nat (List.length parent)))
      eqn:E2; [|discriminate].
    apply andb_prop in E2 as [Hlo Hhi].
    apply Z.leb_le in Hlo. apply Z.ltb_lt in Hhi.
    set (new := lalter (Z.to_nat index) (fun _ => value) parent) in *.
    set (j1 := store j (map Key (init ++ [pk])) (fun _ => VSlice new)) in *.
    assert (Hd1 : deref j1 (map Key (init ++ [pk])) = Some (VSlice new)).
    { unfold deref, j1. rewrite root_store.
      - exact (@get_upd_at_same _ (fun _ => VSlice new) _ _ Hd).
      - left. rewrite map_app. intros Hnil.
        apply app_eq_nil in Hnil as [_ Hnil]. discriminate. }
    destruct (deref_key_prefix j1 (map Key init) [] pk
                (x := VSlice new)) as (mp1 & v1 & Hinit1 & _).
    { now rewrite map_app in Hd1. }
    rewrite Hkeys in H.
    destruct (@reattach_along j1 j' init pk t _ _ Hd1 H) as [_ ->].
    rewrite Hkeys.
    erewrite Find_loop_along
      by (rewrite map_app;
          exact (@deref_store_assign j1 _ pk _ mp1 Hinit1)).
    simpl. rewrite Ht. unfold new at 1. rewrite length_lalter.
    replace ((index <? 0) || (Z.of_nat (List.length parent) <=? index))
      with false
      by (symmetry; apply orb_false_iff;
          split; [apply Z.ltb_ge|apply Z.leb_gt]; lia).
    f_equal. apply nth_error_nth. unfold new.
    rewrite nth_error_lalter_same.
    destruct (nth_error parent (Z.to_nat index)) eqn:En; [reflexivity|].
    apply nth_error_None in En. lia.
Qed.

(** The loop of [Add] from any of its iterations: [ck] are the keys
    behind, [pre ++ [t]] the keys ahead, [node] is what [current] points
    to. *)
Lemma Add_loop_then_find (j' : JsonMapper) (t : string)
    (pre : list string) :
  forall (ck : list string) (j : JsonMapper) (node : Value),
    keys = ck ++ pre ++ [t] ->
    deref j (map Key ck) = Some node ->
    resolves_to_scalar node pre = false ->
    Add_loop keys value (List.length ck) (pre ++ [t]) (map Key ck) j
    = (Ok tt, j') ->
    match Find_loop node pre with
    | Ok (VSlice s) =>
        if fst (Atoi t) =? -1
        then deref j' (map Key (ck ++ pre)) = Some (VSlice (s ++ [value]))
        else Find_loop (root j') keys = Ok value
    | _ => Find_loop (root j') keys = Ok value
    end.
Proof.
  induction pre as [|key pre' IH]; intros ck j node Hkeys Hd Hs H.
  - simpl in *. destruct node; try discriminate Hs.
    + rewrite app_nil_r. now apply (Add_last_on_slice j).
    + cbn [Add_loop] in H. rewrite Hd in H. injection H as <-.
      rewrite Hkeys.
      erewrite Find_loop_along.
      2:{ unfold deref in Hd. rewrite root_store
            by (right; apply assign_keeps_map).
          exact (@get_upd_at_same _ (assign t value) _ _ Hd). }
      simpl. now rewrite mget_mset_same.
  - change ((key :: pre') ++ [t]) with (key :: (pre' ++ [t])) in H.
    rewrite Add_loop_step in H by (destruct pre'; discriminate).
    rewrite Hd in H. destruct node; try discriminate H.
    assert (Hlen : S (List.length ck) = List.length (ck ++ [key]))
      by (rewrite length_app; simpl; lia).
    assert (Hmap : map Key ck ++ [Key key] = map Key (ck ++ [key]))
      by now rewrite map_app.
    assert (Hkeys' : keys = (ck ++ [key]) ++ pre' ++ [t])
      by (now rewrite <- app_assoc).
    unfold resolves_to_scalar in Hs. simpl in Hs |- *.
    destruct (mget key mp) as [next|] eqn:E.
    + rewrite Hlen, Hmap in H.
      assert (Hd' : deref j (map Key (ck ++ [key])) = Some next).
      { unfold deref in *. rewrite <- Hmap, get_at_app, Hd. simpl.
        now rewrite E. }
      specialize (IH (ck ++ [key]) j next Hkeys' Hd' Hs H).
      now rewrite <- app_assoc in IH.
    + destruct (Atoi key) as [index [e|]]; [|discriminate].
      rewrite Hlen, Hmap in H.
      assert (Hd' : deref (store j (map Key ck) (assign key (VMap [])))
                      (map Key (ck ++ [key])) = Some (VMap [])).
      { rewrite <- Hmap. exact (@deref_store_assign j _ key _ mp Hd). }
      assert (Hs' : resolves_to_scalar (VMap []) pre' = false)
        by (destruct pre'; reflexivity).
      specialize (IH (ck ++ [key]) _ (VMap []) Hkeys' Hd' Hs' H).
      destruct pre'; exact IH.
Qed.

End AddThenFind.

(** C1, as the specification words it, fails on two inputs.  On
    [{"a":1}] the path ["a.b"] passes through the number: [Add] returns
    nil without writing, and [Find] returns the number.  On the empty
    document the empty path makes [Add] write the key [""], and [Find]
    returns the root. *)
Lemma C1_counterexample :
  ~ (forall j' : JsonMapper,
       Add (mkJsonMapper [("a", VNum 1)]) "a.b" (VNum 2) = (Ok tt, j') ->
       Find j' "a.b" = Ok (VNum 2))
  /\ ~ (forall j' : JsonMapper,
          Add (mkJsonMapper []) "" (VNum 1) = (Ok tt, j') ->
          Find j' "" = Ok (VNum 1)).
Proof.
  split; intros H.
  - specialize (H (snd (Add (mkJsonMapper [("a", VNum 1)]) "a.b" (VNum 2)))
                  eq_refl).
    vm_compute in H. discriminate.
  - specialize (H (snd (Add (mkJsonMapper []) "" (VNum 1))) eq_refl).
    vm_compute in H. discriminate.
Qed.

(** With the empty path [Add] writes the key [""] and [Find] returns the
    root. *)
Example Add_empty_path :
  let j' := snd (Add (mkJsonMapper []) "" (VNum 1)) in
  fst (Add (mkJsonMapper []) "" (VNum 1)) = Ok tt
  /\ Find j' "" = Ok (VMap [("", VNum 1)]).
Proof. split; reflexivity. Qed.

(** C1.  Let [keyPath] be a non-empty path with the keys [pre ++ [t]],
    whose part [pre] does not resolve to a scalar in the document.  If
    [Add] succeeds then [Find] at [keyPath] returns the value, except when
    [pre] resolves to a sequence [s] and [t] is -1: then the sequence at
    [pre] is [s] with the value appended, and [Find] returns the value at
    the index [len(s)], the new last one. *)
Theorem C1_add_then_find :
  forall (j j' : JsonMapper) (keyPath : string) (pre : list string)
         (t : string) (value : Value),
    keyPath <> "" ->
    keys_of keyPath = pre ++ [t] ->
    resolves_to_scalar (root j) pre = false ->
    Add j keyPath value = (Ok tt, j') ->
    match Find_loop (root j) pre with
    | Ok (VSlice s) =>
        if fst (Atoi t) =? -1 then
          Find_loop (root j') pre = Ok (VSlice (s ++ [value]))
          /\ forall t' : string,
              Atoi t' = (Z.of_nat (List.length s), None) ->
              Find_loop (root j') (pre ++ [t']) = Ok value
        else Find j' keyPath = Ok value
    | _ => Find j' keyPath = Ok value
    end.
Proof.
  intros j j' keyPath pre t value HP Hk Hs H.
  assert (HF : Find j' keyPath = Find_loop (root j') (keys_of keyPath)).
  { unfold Find. apply String.eqb_neq in HP. now rewrite HP. }
  unfold Add in H. rewrite Hk in H.
  pose proof (@Add_loop_then_find (pre ++ [t]) value j' t pre [] j (root j)
                eq_refl eq_refl Hs H) as G.
  rewrite HF, Hk.
  destruct (Find_loop (root j) pre) as [[]| |]; try exact G.
  destruct (fst (Atoi t) =? -1); [|exact G].
  simpl in G. split.
  - rewrite <- (app_nil_r pre) at 1. now rewrite (Find_loop_along _ _ _ G).
  - intros t' Ht'. rewrite (Find_loop_along _ _ _ G). simpl.
    rewrite Ht', length_app. simpl List.length.
    replace ((Z.of_nat (List.length l) <? 0)
             || (Z.of_nat (List.length l + 1) <=? Z.of_nat (List.length l)))
      with false
      by (symmetry; apply orb_false_iff;
          split; [apply Z.ltb_ge|apply Z.leb_gt]; lia).
    rewrite Nat2Z.id. now rewrite nth_middle.
Qed.

Lemma C1_add_then_find_witness :
  Find (snd (Add (scenario false) "a.c[0]" (VNum 7))) "a.c[0]" = Ok (VNum 7)
  /\ Find (snd (Add (scenario false) "a.x.y" (VNum 7))) "a.x.y" = Ok (VNum 7)
  /\ (Find_loop (root (scenario_added false)) ["a"; "c"]
      = Ok (VSlice ([VNum 10; VNum 20; VNum 30] ++ [VInt Int 40]))
      /\ forall t' : string,
          Atoi t' = (3, None) ->
          Find_loop (root (scenario_added false)) (["a"; "c"] ++ [t'])
          = Ok (VInt Int 40)).
Proof.
  split; [|split].
  - apply (@C1_add_then_find (scenario false)
             (snd (Add (scenario false) "a.c[0]" (VNum 7))) "a.c[0]"
             ["a"; "c"] "0" (VNum 7)); try reflexivity. discriminate.
  - apply (@C1_add_then_find (scenario false)
             (snd (Add (scenario false) "a.x.y" (VNum 7))) "a.x.y"
             ["a"; "x"] "y" (VNum 7)); try reflexivity. discriminate.
  - apply (@C1_add_then_find (scenario false) (scenario_added false)
             "a.c[-1]" ["a"; "c"] "-1" (VInt Int 40)); try reflexivity.
    discriminate.
Defined.

(* ================================================================== *)
(** ** Further properties: paths as strings *)
(* ================================================================== *)

Lemma concat_dot_cons (f : string) (fs : list string) :
  fs <> [] ->
  String.concat "." (f :: fs) = (f ++ "." ++ String.concat "." fs)%string.
Proof. destruct fs; [congruence|reflexivity]. Qed.

(** [strings.Split] on the dot loses nothing: no field holds a dot,
    and the fields joined by dots are the string again. *)
Theorem Split_dot_join :
  forall s : string,
    String.concat "." (Split_dot s) = s
    /\ Forall (fun f => ~ In "."%char (list_ascii_of_string f)) (Split_dot s).
Proof.
  induction s as [|c r [IHj IHf]].
  - split; [reflexivity|]. constructor; [|constructor]. simpl. tauto.
  - simpl. destruct (Ascii.eqb c ".") eqn:E.
    + apply Ascii.eqb_eq in E. subst c. split.
      * rewrite concat_dot_cons by apply Split_dot_nonempty.
        simpl. now rewrite IHj.
      * constructor; [simpl; tauto | exact IHf].
    + apply Ascii.eqb_neq in E.
      destruct (Split_dot r) as [|f fs] eqn:Er.
      * now apply Split_dot_nonempty in Er.
      * split.
        -- destruct fs as [|g gs].
           ++ simpl in *. now rewrite IHj.
           ++ rewrite concat_dot_cons by discriminate.
              rewrite concat_dot_cons in IHj by discriminate.
              simpl. now rewrite <- IHj.
        -- inversion IHf as [|? ? Hf Hfs]; subst.
           constructor; [|exact Hfs].
           simpl. intros [H|H]; [congruence | contradiction].
Qed.

(** X1.  The keys of a path are the fields of the rewritten path
    between its dots: there is at least one key, no key holds a dot, and
    the keys joined by dots are the rewritten path again. *)
Theorem keys_of_join :
  forall keyPath : string,
    keys_of keyPath <> []
    /\ Forall (fun key => ~ In "."%char (list_ascii_of_string key))
         (keys_of keyPath)
    /\ String.concat "." (keys_of keyPath) = convertBracketsToDots keyPath.
Proof.
  intros keyPath. unfold keys_of.
  destruct (Split_dot_join (convertBracketsToDots keyPath)) as [Hj Hf].
  split; [apply Split_dot_nonempty | split; assumption].
Qed.

Lemma span_digits_length (s : string) :
  forall d r, span_digits s = (d, r) ->
  (String.length d + String.length r = String.length s)%nat.
Proof.
  induction s as [|c rest IH]; intros d r H; simpl in H.
  - injection H as <- <-. reflexivity.
  - destruct (is_digit c).
    + destruct (span_digits rest) as [d' r'] eqn:E.
      injection H as <- <-. simpl. now rewrite (IH _ _ eq_refl).
    + injection H as <- <-. reflexivity.
Qed.

(** A match consumes at least its closing bracket. *)
Lemma match_index_length (s inner r : string) :
  match_index s = Some (inner, r) ->
  (String.length r < String.length s)%nat.
Proof.
  unfold match_index. intros H.
  assert (G : forall s1 sign,
             (String.length s1 <= String.length s)%nat ->
             match span_digits s1 with
             | (EmptyString, _) => None
             | (ds, String "]"%char r0) => Some ((sign ++ ds)%string, r0)
             | _ => None
             end = Some (inner, r) ->
             (String.length r < String.length s)%nat).
  { intros s1 sign Hle H1.
    destruct (span_digits s1) as [d r1] eqn:E.
    apply span_digits_length in E.
    destruct d as [|dc d']; [discriminate|].
    destruct r1 as [|c1 r1']; [discriminate|].
    destruct (Ascii.eqb c1 "]") eqn:Ec.
    - apply Ascii.eqb_eq in Ec. subst c1. injection H1 as _ <-.
      simpl in E. lia.
    - destruct c1 as [[] [] [] [] [] [] [] []]; try discriminate H1.
      discriminate Ec. }
  destruct s as [|c rest].
  - apply (G "" ""%string); [simpl; lia | exact H].
  - destruct (Ascii.eqb c "-") eqn:Ec.
    + apply Ascii.eqb_eq in Ec. subst c.
      apply (G rest "-"%string); [simpl; lia | exact H].
    + apply (G (String c rest) ""%string); [lia|].
      destruct c as [[] [] [] [] [] [] [] []]; try exact H.
      discriminate Ec.
Qed.

(** The scan does not depend on the fuel, once there is enough of it. *)
Lemma convert_from_fuel (f1 : nat) :
  forall (f2 : nat) (s : string),
    (String.length s <= f1)%nat -> (String.length s <= f2)%nat ->
    convert_from f1 s = convert_from f2 s.
Proof.
  induction f1 as [|f1 IH]; intros f2 s H1 H2.
  - destruct s; [|simpl in H1; lia]. destruct f2; reflexivity.
  - destruct f2 as [|f2].
    + destruct s; [reflexivity | simpl in H2; lia].
    + destruct s as [|c rest]; [reflexivity|]. simpl in *.
      destruct (Ascii.eqb c "[").
      * destruct (match_index rest) as [[inner r]|] eqn:E.
        -- apply match_index_length in E.
           now rewrite (IH f2 r) by lia.
        -- now rewrite (IH f2 rest) by lia.
      * now rewrite (IH f2 rest) by lia.
Qed.

(** The equation of the scan. *)
Lemma convert_cons (c : ascii) (rest : string) :
  convertBracketsToDots (String c rest)
  = if Ascii.eqb c "["%char then
      match match_index rest with
      | Some (inner, r) => ("." ++ inner ++ convertBracketsToDots r)%string
      | None => String c (convertBracketsToDots rest)
      end
    else String c (convertBracketsToDots rest).
Proof.
  unfold convertBracketsToDots. simpl.
  destruct (Ascii.eqb c "[").
  - destruct (match_index rest) as [[inner r]|] eqn:E.
    + apply match_index_length in E.
      now rewrite (@convert_from_fuel (String.length rest)
                     (String.length r) r) by lia.
    + reflexivity.
  - reflexivity.
Qed.

Lemma convert_plain (s : string) :
  ~ In "["%char (list_ascii_of_string s) -> convertBracketsToDots s = s.
Proof.
  induction s as [|c rest IH]; intros H; [reflexivity|].
  rewrite convert_cons. simpl in H.
  destruct (Ascii.eqb_spec c "["%char) as [->|_]; [tauto|].
  now rewrite IH by tauto.
Qed.

(** X2.  A path without an opening bracket is left as it is. *)
Theorem convert_without_bracket :
  forall s : string,
    ~ In "["%char (list_ascii_of_string s) ->
    convertBracketsToDots s = s.
Proof.
  induction s as [|c rest IH]; intros H; [reflexivity|].
  rewrite convert_cons.
  destruct (Ascii.eqb c "[") eqn:E.
  - apply Ascii.eqb_eq in E. subst c. simpl in H. tauto.
  - simpl in H. rewrite IH by tauto. reflexivity.
Qed.

Lemma convert_without_bracket_witness :
  convertBracketsToDots "a.b.2" = "a.b.2".
Proof.
  apply convert_without_bracket. simpl.
  intros H; repeat (destruct H as [H|H]; [discriminate H|]); exact H.
Defined.

Lemma span_digits_app (c0 : ascii) (s' : string) (q : string) :
  is_digit c0 = false ->
  span_digits (q ++ String c0 s')
  = let (d, r) := span_digits q in (d, (r ++ String c0 s')%string).
Proof.
  intros Hc. induction q as [|c q IH]; simpl.
  - now rewrite Hc.
  - destruct (is_digit c); [|reflexivity].
    rewrite IH. now destruct (span_digits q).
Qed.

Lemma span_digits_digits (ds : string) :
  forallb is_digit (list_ascii_of_string ds) = true ->
  span_digits ds = (ds, ""%string).
Proof.
  induction ds as [|c ds IH]; simpl; intros H; [reflexivity|].
  apply andb_prop in H as [Hc Hd]. now rewrite Hc, (IH Hd).
Qed.

(** The match at the head of [q] is not changed by a text appended to
    [q] that starts with a character which no match can take in. *)
Lemma match_index_app (c0 : ascii) (s' : string) (q : string) :
  is_digit c0 = false -> c0 <> "]"%char -> c0 <> "-"%char ->
  match_index (q ++ String c0 s')
  = match match_index q with
    | Some (inner, r) => Some (inner, (r ++ String c0 s')%string)
    | None => None
    end.
Proof.
  intros Hd Hb Hm.
  assert (G : forall (s1 sign : string),
             match span_digits (s1 ++ String c0 s') with
             | (EmptyString, _) => None
             | (ds, String "]"%char r0) => Some ((sign ++ ds)%string, r0)
             | _ => None
             end
             = match
                 match span_digits s1 with
                 | (EmptyString, _) => None
                 | (ds, String "]"%char r0) => Some ((sign ++ ds)%string, r0)
                 | _ => None
                 end
               with
               | Some (inner, r) => Some (inner, (r ++ String c0 s')%string)
               | None => None
               end).
  { intros s1 sign. rewrite span_digits_app by exact Hd.
    destruct (span_digits s1) as [d r1].
    destruct d as [|dc d']; [reflexivity|].
    destruct r1 as [|c1 r1'].
    - simpl. destruct (Ascii.eqb c0 "]") eqn:E.
      + apply Ascii.eqb_eq in E. contradiction.
      + destruct c0 as [[] [] [] [] [] [] [] []]; try reflexivity.
        discriminate E.
    - simpl. destruct c1 as [[] [] [] [] [] [] [] []]; reflexivity. }
  unfold match_index.
  destruct q as [|c q'].
  - clear Hd Hb.
    destruct c0 as [[] [] [] [] [] [] [] []];
      try exact (G ""%string ""%string).
    exfalso. apply Hm. reflexivity.
  - destruct c as [[] [] [] [] [] [] [] []];
      try exact (G q' "-"%string);
      match goal with
      | |- context [span_digits (String ?c q')] =>
          exact (G (String c q') ""%string)
      end.
Qed.

Lemma string_app_assoc (a b c : string) :
  ((a ++ b) ++ c = a ++ (b ++ c))%string.
Proof. induction a as [|x a IH]; simpl; [reflexivity | now rewrite IH]. Qed.

Lemma string_app_nil_r (a : string) : (a ++ "")%string = a.
Proof. induction a as [|x a IH]; simpl; [reflexivity | now rewrite IH]. Qed.

(** The rewriting of a path distributes over a suffix that starts with
    such a character. *)
Lemma convert_app (c0 : ascii) (s' : string) (n : nat) :
  is_digit c0 = false -> c0 <> "]"%char -> c0 <> "-"%char ->
  forall p : string,
    (String.length p <= n)%nat ->
    convertBracketsToDots (p ++ String c0 s')
    = (convertBracketsToDots p ++ convertBracketsToDots (String c0 s'))%string.
Proof.
  intros Hd Hb Hm. induction n as [|n IH]; intros p Hn.
  - destruct p; [reflexivity | simpl in Hn; lia].
  - destruct p as [|c p']; [reflexivity|].
    change ((String c p' ++ String c0 s')%string)
      with (String c (p' ++ String c0 s')).
    rewrite (convert_cons c (p' ++ String c0 s')), (convert_cons c p').
    simpl in Hn.
    destruct (Ascii.eqb c "[").
    + rewrite match_index_app by assumption.
      destruct (match_index p') as [[inner r]|] eqn:E.
      * apply match_index_length in E.
        rewrite IH by lia. simpl.
        now rewrite !string_app_assoc.
      * rewrite IH by lia. reflexivity.
    + rewrite IH by lia. reflexivity.
Qed.

Lemma digits_without_bracket (ds : string) :
  forallb is_digit (list_ascii_of_string ds) = true ->
  ~ In "["%char (list_ascii_of_string ds).
Proof.
  induction ds as [|c ds IH]; simpl; intros H; [tauto|].
  apply andb_prop in H as [Hc Hd]. intros [E|Hin].
  - subst c. discriminate Hc.
  - now apply IH.
Qed.

(** The bracket form of an index, alone. *)
Lemma convert_bracket_index (sign ds : string) :
  sign = ""%string \/ sign = "-"%string ->
  ds <> ""%string ->
  forallb is_digit (list_ascii_of_string ds) = true ->
  convertBracketsToDots ("[" ++ sign ++ ds ++ "]")
  = ("." ++ sign ++ ds)%string
  /\ convertBracketsToDots ("." ++ sign ++ ds) = ("." ++ sign ++ ds)%string.
Proof.
  intros Hs Hne Hd.
  assert (Hspan : span_digits (ds ++ "]") = (ds, "]"%string)).
  { rewrite span_digits_app by reflexivity.
    now rewrite span_digits_digits. }
  split.
  - change ("[" ++ sign ++ ds ++ "]")%string
      with (String "["%char (sign ++ ds ++ "]")).
    rewrite convert_cons. simpl Ascii.eqb. cbv iota.
    assert (Hm : match_index (sign ++ ds ++ "]")
                 = Some ((sign ++ ds)%string, ""%string)).
    { unfold match_index. destruct Hs as [-> | ->].
      - simpl append. destruct ds as [|c ds']; [congruence|].
        simpl in Hd. apply andb_prop in Hd as [Hc _].
        replace (match (String c ds' ++ "]")%string with
                 | String "-"%char r => ("-"%string, r)
                 | _ => (""%string, (String c ds' ++ "]")%string)
                 end)
          with (""%string, (String c ds' ++ "]")%string)
          by (simpl; destruct c as [[] [] [] [] [] [] [] []];
              try reflexivity; discriminate Hc).
        rewrite Hspan. reflexivity.
      - change (("-" ++ ds ++ "]")%string) with (String "-"%char (ds ++ "]")).
        cbv iota beta. rewrite Hspan.
        destruct ds; [congruence | reflexivity]. }
    rewrite Hm. simpl. change (convertBracketsToDots "") with ""%string.
    now rewrite string_app_nil_r.
  - apply convert_plain.
    destruct Hs as [-> | ->]; simpl.
    + intros [H|H]; [discriminate | now apply digits_without_bracket in H].
    + intros [H|[H|H]]; try discriminate.
      now apply digits_without_bracket in H.
Qed.

Lemma append_nonempty (p s : string) : s <> ""%string -> (p ++ s)%string <> ""%string.
Proof. destruct p; simpl; [auto | discriminate]. Qed.

(** X3.  The bracket form of an index and its dot form are the same
    path: after any prefix, [[N]] and [.N] (and [[-N]] and [.-N]) give
    the same keys, so [Find], [Add] and [Remove] cannot tell them
    apart. *)
Theorem bracket_is_dot :
  forall (p sign ds : string),
    sign = ""%string \/ sign = "-"%string ->
    ds <> ""%string ->
    forallb is_digit (list_ascii_of_string ds) = true ->
    let bracket := (p ++ "[" ++ sign ++ ds ++ "]")%string in
    let dot := (p ++ "." ++ sign ++ ds)%string in
    keys_of bracket = keys_of dot
    /\ (forall j, Find j bracket = Find j dot)
    /\ (forall j value, Add j bracket value = Add j dot value)
    /\ (forall j, Remove j bracket = Remove j dot).
Proof.
  intros p sign ds Hs Hne Hd bracket dot.
  destruct (convert_bracket_index Hs Hne Hd) as [Hb Hdot].
  assert (Hk : keys_of bracket = keys_of dot).
  { unfold keys_of, bracket, dot. f_equal.
    change ("[" ++ sign ++ ds ++ "]")%string
      with (String "["%char (sign ++ ds ++ "]")) in *.
    change ("." ++ sign ++ ds)%string
      with (String "."%char (sign ++ ds)) in *.
    rewrite (@convert_app "["%char _ (String.length p))
      by (try reflexivity; try discriminate; lia).
    rewrite (@convert_app "."%char _ (String.length p))
      by (try reflexivity; try discriminate; lia).
    now rewrite Hb, Hdot. }
  split; [exact Hk|]. split; [|split].
  - intros j. unfold Find. rewrite Hk.
    assert (H1 : String.eqb bracket "" = false)
      by (apply String.eqb_neq, append_nonempty; discriminate).
    assert (H2 : String.eqb dot "" = false)
      by (apply String.eqb_neq, append_nonempty; discriminate).
    now rewrite H1, H2.
  - intros j value. unfold Add. now rewrite Hk.
  - intros j. unfold Remove. now rewrite Hk.
Qed.

Lemma bracket_is_dot_witness :
  keys_of "a.b[2]" = keys_of "a.b.2"
  /\ (forall j, Find j "a.b[2]" = Find j "a.b.2")
  /\ (forall j value, Add j "a.b[2]" value = Add j "a.b.2" value)
  /\ (forall j, Remove j "a.b[2]" = Remove j "a.b.2").
Proof.
  apply (@bracket_is_dot "a.b" "" "2").
  - left. reflexivity.
  - discriminate.
  - reflexivity.
Defined.

Lemma digit_val_range (c : ascii) :
  is_digit c = true -> 0 <= digit_val c <= 9.
Proof.
  unfold is_digit, digit_val. intros H.
  apply andb_prop in H as [H1 H2].
  apply Nat.leb_le in H1. apply Nat.leb_le in H2. lia.
Qed.

Lemma ParseUint_loop_range (s : string) :
  forall n : Z,
    0 <= n <= MaxUint64 ->
    0 <= fst (ParseUint_loop s n) <= MaxUint64
    /\ (snd (ParseUint_loop s n) = Some ErrSyntax ->
        fst (ParseUint_loop s n) = 0).
Proof.
  induction s as [|c rest IH]; intros n Hn; cbn [ParseUint_loop].
  - split; [exact Hn | discriminate].
  - destruct (is_digit c) eqn:Hc; cbn [negb].
    + destruct (MaxUint64 / 10 + 1 <=? n);
        [cbn [fst snd]; split; [unfold MaxUint64; lia | discriminate]|].
      destruct (MaxUint64 <? n * 10 + digit_val c) eqn:E;
        [cbn [fst snd]; split; [unfold MaxUint64; lia | discriminate]|].
      apply IH. apply Z.ltb_ge in E.
      pose proof (digit_val_range c Hc). lia.
    + cbn [fst snd]. split; [unfold MaxUint64; lia | reflexivity].
Qed.

(** [strconv.Atoi] stays within the 64-bit integers on every
    input; on a syntax error its value is 0, on a range error it is one
    of the two bounds. *)
Theorem Atoi_range :
  forall s : string,
    MinInt64 <= fst (Atoi s) <= MaxInt64
    /\ (snd (Atoi s) = Some ErrSyntax -> fst (Atoi s) = 0)
    /\ (snd (Atoi s) = Some ErrRange ->
        fst (Atoi s) = MaxInt64 \/ fst (Atoi s) = MinInt64).
Proof.
  intros s. unfold Atoi. destruct s as [|c rest].
  - simpl. unfold MinInt64, MaxInt64. repeat split; try lia. discriminate.
  - set (neg := Ascii.eqb c "-").
    set (s1 := if neg || Ascii.eqb c "+" then rest else String c rest).
    assert (Hu : 0 <= fst (ParseUint s1) <= MaxUint64).
    { unfold ParseUint. destruct s1; [simpl; unfold MaxUint64; lia|].
      apply ParseUint_loop_range. unfold MaxUint64. lia. }
    destruct (ParseUint s1) as [un [[|]|]]; simpl in Hu.
    + simpl. unfold MinInt64, MaxInt64. repeat split; try lia. discriminate.
    + destruct (negb neg && (MaxInt64 + 1 <=? un)) eqn:E1;
        [simpl; unfold MinInt64, MaxInt64; repeat split; try lia;
         discriminate|].
      destruct (neg && (MaxInt64 + 1 <? un)) eqn:E2;
        [simpl; unfold MinInt64, MaxInt64; repeat split; try lia;
         discriminate|].
      simpl. repeat split; try discriminate;
        destruct neg; simpl in *;
        try (apply Z.leb_gt in E1); try (apply Z.ltb_ge in E2);
        unfold MinInt64, MaxInt64 in *; lia.
    + destruct (negb neg && (MaxInt64 + 1 <=? un)) eqn:E1;
        [simpl; unfold MinInt64, MaxInt64; repeat split; try lia;
         discriminate|].
      destruct (neg && (MaxInt64 + 1 <? un)) eqn:E2;
        [simpl; unfold MinInt64, MaxInt64; repeat split; try lia;
         discriminate|].
      simpl. repeat split; try discriminate;
        destruct neg; simpl in *;
        try (apply Z.leb_gt in E1); try (apply Z.ltb_ge in E2);
        unfold MinInt64, MaxInt64 in *; lia.
Qed.

(* ================================================================== *)
(** ** Further properties of [Find] *)
(* ================================================================== *)

(** X4.  [Find] never faults: on every document and every path it
    returns a value or an error. *)
Theorem Find_no_panic :
  forall (j : JsonMapper) (keyPath : string) (p : fault),
    Find j keyPath <> Panic p.
Proof.
  intros j keyPath p. unfold Find.
  destruct (String.eqb keyPath ""); [discriminate|].
  apply Find_loop_no_panic.
Qed.

Lemma keys_not_empty_path (keyPath : string) (a b : string)
    (rest : list string) :
  keys_of keyPath = a :: b :: rest -> String.eqb keyPath "" = false.
Proof.
  intros H. apply String.eqb_neq. intros ->. discriminate H.
Qed.

(** X5.  A key that is missing from the map reached through the keys
    before it makes [Find] fail with the key-not-found error of that
    key, whatever follows it in the path. *)
Theorem Find_missing_key :
  forall (j : JsonMapper) (keyPath : string) (pre : list string)
         (k : string) (rest : list string) (mp : Mapping),
    keyPath <> ""%string ->
    keys_of keyPath = pre ++ k :: rest ->
    deref j (map Key pre) = Some (VMap mp) ->
    mget k mp = None ->
    Find j keyPath = Err (EKeyNotFound k).
Proof.
  intros j keyPath pre k rest mp HP Hk Hd Hm.
  unfold Find. apply String.eqb_neq in HP. rewrite HP, Hk.
  rewrite (@Find_loop_along pre (k :: rest) (root j) (VMap mp) Hd).
  simpl. now rewrite Hm.
Qed.

Lemma Find_missing_key_witness :
  Find (scenario false) "a.x.y" = Err (EKeyNotFound "x").
Proof.
  apply (@Find_missing_key (scenario false) "a.x.y" ["a"] "x" ["y"]
           [("b", VNum 1); ("c", VSlice [VNum 10; VNum 20; VNum 30])]).
  - discriminate.
  - reflexivity.
  - reflexivity.
  - reflexivity.
Defined.

(** X6.  On a slice reached through the keys before it, the last key of
    a path must be the text of an integer within the bounds: [Find]
    returns the element at an index from 0 to len-1, fails with the
    out-of-range error for every other integer, -1 included, and with
    the invalid-index error for any other text. *)
Theorem Find_in_slice :
  forall (j : JsonMapper) (keyPath : string) (pre : list string)
         (t : string) (l : list Value),
    keyPath <> ""%string ->
    keys_of keyPath = pre ++ [t] ->
    deref j (map Key pre) = Some (VSlice l) ->
    (forall z, Atoi t = (z, None) -> 0 <= z < Z.of_nat (List.length l) ->
               Find j keyPath = Ok (nth (Z.to_nat z) l VNil))
    /\ (forall z, Atoi t = (z, None) ->
                  z < 0 \/ Z.of_nat (List.length l) <= z ->
                  Find j keyPath = Err (EIndexOutOfRange z))
    /\ (snd (Atoi t) <> None ->
        Find j keyPath = Err (EInvalidArrayIndex t)).
Proof.
  intros j keyPath pre t l HP Hk Hd.
  assert (HF : Find j keyPath = Find_loop (VSlice l) [t]).
  { unfold Find. apply String.eqb_neq in HP. rewrite HP, Hk.
    exact (@Find_loop_along pre [t] (root j) (VSlice l) Hd). }
  rewrite HF. simpl. repeat split.
  - intros z Hz Hr. rewrite Hz.
    replace ((z <? 0) || (Z.of_nat (List.length l) <=? z)) with false
      by (symmetry; apply orb_false_iff;
          split; [apply Z.ltb_ge|apply Z.leb_gt]; lia).
    reflexivity.
  - intros z Hz Hr. rewrite Hz.
    replace ((z <? 0) || (Z.of_nat (List.length l) <=? z)) with true;
      [reflexivity|].
    symmetry. apply orb_true_iff.
    destruct Hr; [left; apply Z.ltb_lt | right; apply Z.leb_le]; lia.
  - intros He. destruct (Atoi t) as [z [e|]]; [reflexivity|].
    now elim He.
Qed.

Lemma Find_in_slice_witness :
  Find (scenario false) "a.c[2]" = Ok (VNum 30)
  /\ Find (scenario false) "a.c[3]" = Err (EIndexOutOfRange 3)
  /\ Find (scenario false) "a.c[-1]" = Err (EIndexOutOfRange (-1))
  /\ Find (scenario false) "a.c.x" = Err (EInvalidArrayIndex "x").
Proof.
  split; [|split; [|split]].
  - apply (proj1 (@Find_in_slice (scenario false) "a.c[2]" ["a"; "c"] "2"
                    [VNum 10; VNum 20; VNum 30]
                    ltac:(discriminate) eq_refl eq_refl) 2);
      [reflexivity | simpl; lia].
  - apply (proj1 (proj2 (@Find_in_slice (scenario false) "a.c[3]" ["a"; "c"]
                           "3" [VNum 10; VNum 20; VNum 30]
                           ltac:(discriminate) eq_refl eq_refl)) 3);
      [reflexivity | simpl; lia].
  - apply (proj1 (proj2 (@Find_in_slice (scenario false) "a.c[-1]"
                           ["a"; "c"] "-1" [VNum 10; VNum 20; VNum 30]
                           ltac:(discriminate) eq_refl eq_refl)) (-1));
      [reflexivity | simpl; lia].
  - apply (proj2 (proj2 (@Find_in_slice (scenario false) "a.c.x" ["a"; "c"]
                           "x" [VNum 10; VNum 20; VNum 30]
                           ltac:(discriminate) eq_refl eq_refl))).
    discriminate.
Defined.

(** X7.  [Find] stops at the first value on its way that is neither a
    map nor a slice and returns it: the keys that follow are ignored. *)
Theorem Find_stops_at_scalar :
  forall (j : JsonMapper) (keyPath : string) (pre rest : list string)
         (c : Value),
    keyPath <> ""%string ->
    keys_of keyPath = pre ++ rest ->
    deref j (map Key pre) = Some c ->
    is_container c = false ->
    Find j keyPath = Ok c.
Proof.
  intros j keyPath pre rest c HP Hk Hd Hc.
  unfold Find. apply String.eqb_neq in HP. rewrite HP, Hk.
  rewrite (@Find_loop_along pre rest (root j) c Hd).
  destruct rest; [reflexivity|].
  destruct c; try reflexivity; discriminate Hc.
Qed.

Lemma Find_stops_at_scalar_witness :
  Find (scenario false) "a.b.x.y[3]" = Ok (VNum 1).
Proof.
  apply (@Find_stops_at_scalar (scenario false) "a.b.x.y[3]" ["a"; "b"]
           ["x"; "y"; "3"] (VNum 1)).
  - discriminate.
  - reflexivity.
  - reflexivity.
  - reflexivity.
Defined.

(* ================================================================== *)
(** ** Further properties of [Add] *)
(* ================================================================== *)

Lemma mget_mset_other (k k' : string) (v : Value) (mp : Mapping) :
  k' <> k -> mget k' (mset k v mp) = mget k' mp.
Proof.
  intros Hne. induction mp as [|[k0 v0] r IH]; simpl.
  - apply String.eqb_neq in Hne. now rewrite Hne.
  - destruct (String.eqb k k0) eqn:E; simpl.
    + apply String.eqb_eq in E. subst k0.
      apply String.eqb_neq in Hne. now rewrite Hne.
    + now rewrite IH.
Qed.

(** From a map that lacks the next key, along keys that are not the text
    of an integer, the loop of [Add] creates a map at every key and
    ends well. *)
Lemma Add_loop_fresh (keys : list string) (value : Value) (t : string)
    (pre : list string) :
  forall (ck : list string) (j : JsonMapper) (mp : Mapping),
    deref j (map Key ck) = Some (VMap mp) ->
    match pre with
    | k0 :: _ => mget k0 mp = None
    | [] => True
    end ->
    Forall (fun k => snd (Atoi k) <> None) pre ->
    exists j' : JsonMapper,
      Add_loop keys value (List.length ck) (pre ++ [t]) (map Key ck) j
      = (Ok tt, j').
Proof.
  induction pre as [|key pre' IH]; intros ck j mp Hd Hm Hn.
  - simpl. rewrite Hd. eauto.
  - change ((key :: pre') ++ [t]) with (key :: (pre' ++ [t])).
    rewrite Add_loop_step by (destruct pre'; discriminate).
    rewrite Hd, Hm.
    inversion Hn as [|? ? Hkey Hrest]; subst.
    destruct (Atoi key) as [z [e|]]; [|now elim Hkey].
    replace (S (List.length ck)) with (List.length (ck ++ [key]))
      by (rewrite length_app; simpl; lia).
    replace (map Key ck ++ [Key key]) with (map Key (ck ++ [key]))
      by now rewrite map_app.
    apply (IH (ck ++ [key]) _ []).
    + rewrite map_app. exact (@deref_store_assign j _ key _ mp Hd).
    + destruct pre'; [exact I | reflexivity].
    + exact Hrest.
Qed.

(** On a root that is a map: when the first key of a path is missing
    from it and no key but the last is the text of an integer, [Add]
    succeeds, creating the maps on the way, and [Find] returns the value
    at the path. *)
Lemma Add_creates_maps_on_map :
  forall (j : JsonMapper) (keyPath k0 : string) (pre : list string)
         (t : string) (value : Value),
    keys_of keyPath = k0 :: pre ++ [t] ->
    mget k0 (m j) = None ->
    Forall (fun k => snd (Atoi k) <> None) (k0 :: pre) ->
    exists j' : JsonMapper,
      Add j keyPath value = (Ok tt, j')
      /\ Find j' keyPath = Ok value.
Proof.
  intros j keyPath k0 pre t value Hk Hm Hn.
  destruct (@Add_loop_fresh (k0 :: pre ++ [t]) value t (k0 :: pre) [] j (m j)
              eq_refl Hm Hn) as [j' Hj'].
  exists j'. unfold Add. rewrite Hk. split; [exact Hj'|].
  assert (Hs : resolves_to_scalar (root j) (k0 :: pre) = false).
  { unfold resolves_to_scalar, root. simpl. now rewrite Hm. }
  pose proof (@Add_loop_then_find (k0 :: pre ++ [t]) value j' t (k0 :: pre)
                [] j (root j) eq_refl eq_refl Hs Hj') as G.
  unfold root at 1 in G. simpl in G. rewrite Hm in G.
  unfold Find.
  replace (String.eqb keyPath "") with false.
  - now rewrite Hk.
  - symmetry. destruct pre; eapply keys_not_empty_path; rewrite Hk;
      reflexivity.
Qed.

(** X9.  A path of two keys or more, none of which but the last is the
    text of an integer.  On a root map that is not nil and lacks the
    first key, [Add] succeeds, creating the maps on the way, and [Find]
    returns the value at the path.  On the nil root map, which the
    decoding of the text [null] leaves, the same [Add] faults with an
    assignment into the nil map. *)
Theorem Add_creates_maps :
  forall (r : RootMap) (keyPath k0 : string) (pre : list string)
         (t : string) (value : Value),
    keys_of keyPath = k0 :: pre ++ [t] ->
    Forall (fun k => snd (Atoi k) <> None) (k0 :: pre) ->
    match r with
    | NonNilMap j =>
        mget k0 (m j) = None ->
        exists j' : JsonMapper,
          Add_root r keyPath value = (Ok tt, NonNilMap j')
          /\ Find j' keyPath = Ok value
    | NilMap => Add_root r keyPath value = (Panic FNilMapAssign, NilMap)
    end.
Proof.
  intros r keyPath k0 pre t value Hk Hn. destruct r as [|j].
  - unfold Add_root. rewrite Hk.
    inversion Hn as [|? ? H0 _]; subst.
    destruct pre; simpl;
      (destruct (Atoi k0) as [z [e|]]; [reflexivity | now elim H0]).
  - intros Hm.
    destruct (@Add_creates_maps_on_map j keyPath k0 pre t value Hk Hm Hn)
      as [j' [Ha Hf]].
    exists j'. unfold Add_root. now rewrite Ha.
Qed.

Lemma Add_creates_maps_witness :
  (exists j' : JsonMapper,
     Add_root (NonNilMap (scenario false)) "x.y.z" (VNum 7)
     = (Ok tt, NonNilMap j')
     /\ Find j' "x.y.z" = Ok (VNum 7))
  /\ Add_root NilMap "x.y.z" (VNum 7) = (Panic FNilMapAssign, NilMap).
Proof.
  split.
  - apply (@Add_creates_maps (NonNilMap (scenario false)) "x.y.z" "x" ["y"]
             "z" (VNum 7)).
    + reflexivity.
    + repeat constructor; discriminate.
    + reflexivity.
  - apply (@Add_creates_maps NilMap "x.y.z" "x" ["y"] "z" (VNum 7)).
    + reflexivity.
    + repeat constructor; discriminate.
Defined.

(** Along keys that exist in nested maps the loop of [Add] only walks. *)
Lemma Add_loop_along (keys : list string) (value : Value)
    (rest : list string) (x : Value) (pre : list string) :
  rest <> [] ->
  forall (ck : list string) (j : JsonMapper),
    deref j (map Key (ck ++ pre)) = Some x ->
    Add_loop keys value (List.length ck) (pre ++ rest) (map Key ck) j
    = Add_loop keys value (List.length (ck ++ pre)) rest
        (map Key (ck ++ pre)) j.
Proof.
  intros Hrest. induction pre as [|key pre' IH]; intros ck j Hd.
  - now rewrite app_nil_r.
  - change ((key :: pre') ++ rest) with (key :: (pre' ++ rest)).
    rewrite Add_loop_step by (destruct pre'; [exact Hrest | discriminate]).
    assert (Hd' : deref j (map Key ck ++ Key key :: map Key pre') = Some x)
      by (now rewrite map_app in Hd).
    destruct (deref_key_prefix _ _ _ _ Hd') as (mp & v & Hmp & Hget & _).
    rewrite Hmp, Hget.
    replace (S (List.length ck)) with (List.length (ck ++ [key]))
      by (rewrite length_app; simpl; lia).
    replace (map Key ck ++ [Key key]) with (map Key (ck ++ [key]))
      by now rewrite map_app.
    rewrite (IH (ck ++ [key]) j) by (now rewrite <- app_assoc).
    now rewrite <- app_assoc.
Qed.

(** The re-attachment succeeds below the first level. *)
Lemma reattach_below (j : JsonMapper) (init : list string) (pk t : string)
    (x node : Value) :
  init <> [] ->
  deref j (map Key (init ++ [pk])) = Some node ->
  reattach j ((init ++ [pk]) ++ [t]) (List.length (init ++ [pk])) x
  = (Ok tt, store j (map Key init) (assign pk x)).
Proof.
  intros Hne Hd.
  destruct (reattach j ((init ++ [pk]) ++ [t]) (List.length (init ++ [pk])) x)
    as [r j'] eqn:E.
  destruct init as [|k0 mid]; [congruence|].
  assert (Hr : r = Ok tt).
  { revert E. unfold reattach.
    rewrite length_app. simpl List.length.
    replace (0 <? S (List.length mid) + 1)%nat with true
      by (symmetry; apply Nat.ltb_lt; lia).
    replace (S (List.length mid) + 1 - 1)%nat with (S (List.length mid))
      by lia.
    change (key_at (((k0 :: mid) ++ [pk]) ++ [t]) 0) with k0.
    assert (H0 : exists mp, deref j [Key k0] = Some (VMap mp)).
    { change (map Key ((k0 :: mid) ++ [pk]))
        with ([Key k0] ++ map Key (mid ++ [pk])) in Hd.
      rewrite map_app in Hd.
      destruct mid as [|k1 mid']; simpl map in Hd;
        apply deref_key_prefix in Hd as (mp & v & Hd & _); eauto. }
    destruct H0 as [mp0 H0]. rewrite H0.
    assert (Hs : slice_keys (((k0 :: mid) ++ [pk]) ++ [t]) 1
                   (S (List.length mid)) = Ok mid).
    { unfold slice_keys.
      replace (S (List.length mid) <? 1)%nat with false
        by (symmetry; apply Nat.ltb_ge; lia).
      simpl. rewrite Nat.sub_0_r, <- app_assoc.
      now rewrite firstn_app, firstn_all, Nat.sub_diag, app_nil_r. }
    rewrite Hs.
    change [Key k0] with (map Key [k0]).
    rewrite (@grandParent_walk_along j pk node mid [k0]) by exact Hd.
    intros H. now injection H as <- _. }
  subst r.
  now destruct (@reattach_along j j' (k0 :: mid) pk t x node Hd E) as [_ ->].
Qed.

Lemma malter_ext (k : string) (f g : Value -> Value) (mp : Mapping) :
  (forall x, f x = g x) -> malter k f mp = malter k g mp.
Proof.
  intros H. induction mp as [|[k0 v0] r IH]; simpl; [reflexivity|].
  now rewrite H, IH.
Qed.

Lemma malter_malter (k : string) (f g : Value -> Value) (mp : Mapping) :
  malter k g (malter k f mp) = malter k (fun x => g (f x)) mp.
Proof.
  induction mp as [|[k0 v0] r IH]; simpl; [reflexivity|].
  destruct (String.eqb k k0) eqn:E; simpl; rewrite E; [reflexivity|].
  now rewrite IH.
Qed.

Lemma malter_fix (k : string) (g : Value -> Value) (mp : Mapping) (v : Value) :
  mget k mp = Some v -> g v = v -> malter k g mp = mp.
Proof.
  intros Hget Hg. induction mp as [|[k0 v0] r IH]; simpl in *; [reflexivity|].
  destruct (String.eqb k k0).
  - injection Hget as ->. now rewrite Hg.
  - now rewrite IH.
Qed.

Lemma lalter_ext (f g : Value -> Value) (l : list Value) :
  (forall x, f x = g x) -> forall n, lalter n f l = lalter n g l.
Proof.
  intros H. induction l as [|x r IH]; intros [|n]; simpl; try reflexivity.
  - now rewrite H.
  - now rewrite IH.
Qed.

Lemma lalter_lalter (f g : Value -> Value) (l : list Value) :
  forall n, lalter n g (lalter n f l) = lalter n (fun x => g (f x)) l.
Proof.
  induction l as [|x r IH]; intros [|n]; simpl; try reflexivity.
  now rewrite IH.
Qed.

Lemma lalter_fix (g : Value -> Value) (l : list Value) (v : Value) :
  forall n, nth_error l n = Some v -> g v = v -> lalter n g l = l.
Proof.
  induction l as [|x r IH]; intros [|n] Hn Hg; simpl in *; try reflexivity.
  - injection Hn as ->. now rewrite Hg.
  - now rewrite (IH n Hn Hg).
Qed.

(** Two updates at the same place are one. *)
Lemma upd_at_twice (p : Trail) (f g : Value -> Value) :
  forall v, upd_at (upd_at v p f) p g = upd_at v p (fun x => g (f x)).
Proof.
  induction p as [|[k|n] p IH]; intros v; simpl; [reflexivity| |].
  - destruct v; try reflexivity. simpl.
    rewrite malter_malter. f_equal. now apply malter_ext.
  - destruct v; try reflexivity. simpl.
    rewrite lalter_lalter. f_equal. now apply lalter_ext.
Qed.

(** An update that leaves its place as it is leaves everything as it
    is. *)
Lemma upd_at_fix (p : Trail) (f : Value -> Value) :
  forall v x, get_at v p = Some x -> f x = x -> upd_at v p f = v.
Proof.
  induction p as [|[k|n] p IH]; intros v x Hget Hf; simpl in *.
  - injection Hget as ->. exact Hf.
  - destruct v; try reflexivity.
    destruct (mget k mp) as [v'|] eqn:E; [|discriminate].
    f_equal. apply (@malter_fix k _ mp v' E). now apply (IH v' x).
  - destruct v; try reflexivity.
    destruct (nth_error l n) as [v'|] eqn:E; [|discriminate].
    f_equal. apply (@lalter_fix _ l v' n E). now apply (IH v' x).
Qed.

Lemma mset_mset (k : string) (a b : Value) (mp : Mapping) :
  mset k b (mset k a mp) = mset k b mp.
Proof.
  induction mp as [|[k0 v0] r IH]; simpl.
  - now rewrite String.eqb_refl.
  - destruct (String.eqb k k0) eqn:E; simpl; rewrite E; [reflexivity|].
    now rewrite IH.
Qed.

Lemma mset_same (k : string) (v : Value) (mp : Mapping) :
  mget k mp = Some v -> mset k v mp = mp.
Proof.
  induction mp as [|[k0 v0] r IH]; simpl; [discriminate|].
  destruct (String.eqb k k0).
  - now intros [= ->].
  - intros H. now rewrite IH.
Qed.

Lemma splice_last (s : list Value) (v : Value) :
  splice (List.length s) (s ++ [v]) = s.
Proof.
  unfold splice.
  rewrite firstn_app, firstn_all, Nat.sub_diag. simpl firstn.
  rewrite skipn_all2 by (rewrite length_app; simpl; lia).
  now rewrite !app_nil_r.
Qed.

(** X10.  Below the first level, appending to a sequence with the
    sentinel -1 and then removing at the same path is a round trip:
    [Add] succeeds and puts the value at the end of the sequence, and
    [Remove] then gives back the document as it was. *)
Theorem Add_append_then_Remove :
  forall (j : JsonMapper) (keyPath : string) (pre : list string)
         (k t : string) (s : list Value) (value : Value),
    pre <> [] ->
    keys_of keyPath = pre ++ [k; t] ->
    Atoi t = (-1, None) ->
    deref j (map Key (pre ++ [k])) = Some (VSlice s) ->
    exists j1 : JsonMapper,
      Add j keyPath value = (Ok tt, j1)
      /\ deref j1 (map Key (pre ++ [k])) = Some (VSlice (s ++ [value]))
      /\ Remove j1 keyPath = (Ok tt, j).
Proof.
  intros j keyPath pre k t s value Hne Hk Ht Hd.
  assert (Hpre : exists mp, deref j (map Key pre) = Some (VMap mp)
                            /\ mget k mp = Some (VSlice s)).
  { rewrite map_app in Hd.
    destruct (deref_key_prefix _ _ _ _ Hd) as (mp & v & Hmp & Hget & Hv).
    simpl in Hv. injection Hv as ->. eauto. }
  destruct Hpre as [mp [Hmp Hget]].
  set (new := VSlice (s ++ [value])).
  set (j1 := store j (map Key pre) (assign k new)).
  assert (Hd1 : deref j1 (map Key (pre ++ [k])) = Some new).
  { rewrite map_app. exact (@deref_store_assign j _ k new mp Hmp). }
  exists j1. split; [|split; [exact Hd1|]].
  - unfold Add. rewrite Hk.
    change (pre ++ [k; t]) with (pre ++ [k] ++ [t]). rewrite app_assoc.
    rewrite (@Add_loop_along _ value [t] (VSlice s) (pre ++ [k])
               ltac:(discriminate) [] j Hd).
    change ([] ++ pre ++ [k]) with (pre ++ [k]).
    cbn [Add_loop]. rewrite Hd, Ht. simpl Z.eqb. cbv iota.
    exact (@reattach_below j pre k t new (VSlice s) Hne Hd).
  - unfold Remove. rewrite Hk.
    erewrite Remove_loop_at_walk
      by (apply (@Remove_walk_along j1 pre k t [] new); exact Hd1).
    simpl app.
    assert (Hmp1 : deref j1 (map Key pre) = Some (VMap (mset k new mp))).
    { unfold deref, j1. rewrite root_store by (right; apply assign_keeps_map).
      exact (@get_upd_at_same _ (assign k new) _ _ Hmp). }
    rewrite (@Remove_loop_splice j1 _ (map Key pre) k t (s ++ [value])
               None "" (List.length s)).
    + rewrite splice_last. f_equal.
      assert (R : root (store j1 (map Key pre) (assign k (VSlice s)))
                  = root j).
      { rewrite root_store by (right; apply assign_keeps_map).
        unfold j1. rewrite root_store by (right; apply assign_keeps_map).
        rewrite upd_at_twice.
        apply (@upd_at_fix _ _ (root j) (VMap mp) Hmp).
        simpl. now rewrite mset_mset, (mset_same _ _ Hget). }
      unfold root in R. injection R as R.
      destruct (store j1 (map Key pre) (assign k (VSlice s))) as [m1].
      destruct j as [m0]. simpl in R. now subst.
    + unfold index_map. rewrite Hmp1. now rewrite mget_mset_same.
    + rewrite length_app. simpl. lia.
    + right. right. split; [rewrite length_app; simpl; lia | exact Ht].
Qed.

Lemma Add_append_then_Remove_witness :
  exists j1 : JsonMapper,
    Add (scenario false) "a.c[-1]" (VInt Int 40) = (Ok tt, j1)
    /\ deref j1 (map Key (["a"] ++ ["c"]))
       = Some (VSlice ([VNum 10; VNum 20; VNum 30] ++ [VInt Int 40]))
    /\ Remove j1 "a.c[-1]" = (Ok tt, scenario false).
Proof.
  apply (@Add_append_then_Remove (scenario false) "a.c[-1]" ["a"] "c" "-1"
           [VNum 10; VNum 20; VNum 30] (VInt Int 40)).
  - discriminate.
  - reflexivity.
  - reflexivity.
  - reflexivity.
Defined.

(* ================================================================== *)
(** ** Further properties of [Remove] *)
(* ================================================================== *)

(** X11.  [Remove] never faults. *)
Theorem Remove_no_panic :
  forall (j : JsonMapper) (keyPath : string) (p : fault),
    fst (Remove j keyPath) <> Panic p.
Proof. intros j keyPath p. apply Remove_loop_no_panic. Qed.

Lemma Remove_loop_error_unchanged (keys rest : list string) :
  forall (current : Trail) (parent : option Trail) (parentKey : string)
         (j j' : JsonMapper) (e : error),
    Remove_loop keys rest current parent parentKey j = (Err e, j') ->
    j' = j.
Proof.
  induction rest as [|key rest' IH];
    intros current parent parentKey j j' e H.
  - simpl in H. unfold Remove_end in H. destruct parent; discriminate.
  - cbn [Remove_loop] in H. destruct rest' as [|next rest''].
    + unfold Remove_end in H. destruct parent; discriminate.
    + destruct (index_map j current key);
        try (now injection H as _ <-).
      * destruct (Atoi next) as [index0 err].
        destruct (_ || _); [now injection H as _ <-|].
        destruct rest''; [discriminate|].
        destruct (nth _ l VNil); try (now injection H as _ <-).
        exact (IH _ _ _ _ _ _ H).
      * exact (IH _ _ _ _ _ _ H).
Qed.

(** X12.  [Remove] that returns an error has not touched the
    document. *)
Theorem Remove_error_unchanged :
  forall (j j' : JsonMapper) (keyPath : string) (e : error),
    Remove j keyPath = (Err e, j') -> j' = j.
Proof.
  intros j j' keyPath e H. exact (Remove_loop_error_unchanged _ _ _ _ _ _ H).
Qed.

Lemma Remove_error_unchanged_witness :
  snd (Remove (scenario false) "a.c[7]") = scenario false.
Proof.
  apply (@Remove_error_unchanged (scenario false)
           (snd (Remove (scenario false) "a.c[7]")) "a.c[7]"
           (ERemoveIndexOutOfRange 7)).
  reflexivity.
Defined.

Lemma mget_mdelete_same (k : string) (mp : Mapping) :
  mget k (mdelete k mp) = None.
Proof.
  induction mp as [|[k0 v0] r IH]; simpl; [reflexivity|].
  destruct (String.eqb k k0) eqn:E; [exact IH|]. simpl. now rewrite E.
Qed.

Lemma mget_mdelete_other (k k' : string) (mp : Mapping) :
  k' <> k -> mget k' (mdelete k mp) = mget k' mp.
Proof.
  intros Hne. induction mp as [|[k0 v0] r IH]; simpl; [reflexivity|].
  destruct (String.eqb k k0) eqn:E; simpl.
  - apply String.eqb_eq in E. subst k0.
    apply String.eqb_neq in Hne. now rewrite Hne.
  - now rewrite IH.
Qed.

Lemma key_at_last (pre : list string) (k t : string) :
  key_at (pre ++ [k; t]) (List.length (pre ++ [k; t]) - 1) = t.
Proof.
  unfold key_at. rewrite length_app. simpl List.length.
  rewrite app_nth2 by lia.
  replace (List.length pre + 2 - 1 - List.length pre)%nat with 1%nat by lia.
  reflexivity.
Qed.

(** X13.  What [Remove] does when the last key but one names a map,
    reached through nested maps: it returns nil and deletes the last key
    [t] from the map that holds the last key but one [k], not from the
    map under [k].  So when the two keys differ, [Find] at the path
    returns afterwards what it returned before; when they are the same,
    the map under [k] is gone altogether. *)
Theorem Remove_under_map :
  forall (j : JsonMapper) (keyPath : string) (pre : list string)
         (k t : string) (child : Mapping),
    keys_of keyPath = pre ++ [k; t] ->
    deref j (map Key (pre ++ [k])) = Some (VMap child) ->
    let j' := store j (map Key pre) (remove_key t) in
    Remove j keyPath = (Ok tt, j')
    /\ if String.eqb k t
       then Find j' keyPath = Err (EKeyNotFound k)
       else Find j' keyPath = Find j keyPath.
Proof.
  intros j keyPath pre k t child Hk Hd j'.
  assert (Hpre : exists mp, deref j (map Key pre) = Some (VMap mp)
                            /\ mget k mp = Some (VMap child)).
  { rewrite map_app in Hd.
    destruct (deref_key_prefix _ _ _ _ Hd) as (mp & v & Hmp & Hget & Hv).
    simpl in Hv. injection Hv as ->. eauto. }
  destruct Hpre as [mp [Hmp Hget]].
  assert (HP : String.eqb keyPath "" = false).
  { apply String.eqb_neq. intros ->. rewrite keys_of_empty in Hk.
    destruct pre as [|a [|b pre']]; discriminate. }
  assert (Hmp' : deref j' (map Key pre) = Some (VMap (mdelete t mp))).
  { unfold deref, j'. rewrite root_store by (right; intros mp0; simpl; eauto).
    exact (@get_upd_at_same _ (remove_key t) _ _ Hmp). }
  split.
  - unfold Remove. rewrite Hk.
    erewrite Remove_loop_at_walk
      by (apply (@Remove_walk_along j pre k t [] (VMap child)); exact Hd).
    change ([] ++ map Key pre) with (map Key pre). cbn [Remove_loop].
    unfold index_map. rewrite Hmp, Hget.
    unfold Remove_end. now rewrite key_at_last.
  - unfold Find. rewrite HP, Hk.
    change (pre ++ [k; t]) with (pre ++ ([k; t])).
    rewrite (@Find_loop_along pre [k; t] (root j') _ Hmp').
    rewrite (@Find_loop_along pre [k; t] (root j) _ Hmp).
    destruct (String.eqb k t) eqn:E.
    + apply String.eqb_eq in E. subst t. simpl.
      now rewrite mget_mdelete_same.
    + apply String.eqb_neq in E. cbn [Find_loop].
      now rewrite mget_mdelete_other.
Qed.

Lemma Remove_under_map_witness :
  let j := mkJsonMapper [("a", VMap [("b", VNum 1)]); ("b", VNum 2)] in
  let j' := store j (map Key []) (remove_key "b") in
  Remove j "a.b" = (Ok tt, j')
  /\ if String.eqb "a" "b"
     then Find j' "a.b" = Err (EKeyNotFound "a")
     else Find j' "a.b" = Find j "a.b".
Proof.
  apply (@Remove_under_map
           (mkJsonMapper [("a", VMap [("b", VNum 1)]); ("b", VNum 2)])
           "a.b" [] "a" "b" [("b", VNum 1)]).
  - reflexivity.
  - reflexivity.
Defined.

(** X14.  With -1 as its last key [Remove] removes the last element of
    a non-empty sequence, and stores the rest under the key through
    which the sequence was reached. *)
Theorem Remove_last_element :
  forall (j : JsonMapper) (keyPath : string) (c : Trail) (k t : string)
         (s : list Value),
    Remove_walk j (keys_of keyPath) [] = Some (c, k, t) ->
    index_map j c k = VSlice s ->
    s <> [] ->
    Atoi t = (-1, None) ->
    Remove j keyPath
    = (Ok tt, store j c (assign k (VSlice (removelast s)))).
Proof.
  intros j keyPath c k t s Hw Hs Hne Ht.
  unfold Remove. erewrite Remove_loop_at_walk by exact Hw.
  assert (Hlen : (0 < List.length s)%nat)
    by (destruct s; simpl; [congruence | lia]).
  rewrite (@Remove_loop_splice j _ c k t s None "" (List.length s - 1));
    try assumption; try lia.
  - do 3 f_equal. unfold splice.
    replace (S (List.length s - 1)) with (List.length s) by lia.
    rewrite skipn_all, app_nil_r.
    rewrite removelast_firstn_len. now rewrite Nat.sub_1_r.
  - right. right. split; [lia | exact Ht].
Qed.

Lemma Remove_last_element_witness :
  Remove (scenario false) "a.c[-1]"
  = (Ok tt, store (scenario false) [Key "a"]
              (assign "c" (VSlice (removelast [VNum 10; VNum 20; VNum 30])))).
Proof.
  apply (@Remove_last_element (scenario false) "a.c[-1]" [Key "a"] "c" "-1"
           [VNum 10; VNum 20; VNum 30]).
  - reflexivity.
  - reflexivity.
  - discriminate.
  - reflexivity.
Defined.

(** X15.  An integer that is no index of the sequence, or -1 on an empty
    sequence, makes [Remove] fail with the out-of-range error of that
    integer and leave the document as it is. *)
Theorem Remove_out_of_range :
  forall (j : JsonMapper) (keyPath : string) (c : Trail) (k t : string)
         (s : list Value) (z : Z),
    Remove_walk j (keys_of keyPath) [] = Some (c, k, t) ->
    index_map j c k = VSlice s ->
    Atoi t = (z, None) ->
    (z < -1 \/ Z.of_nat (List.length s) <= z \/ (z = -1 /\ s = [])) ->
    Remove j keyPath = (Err (ERemoveIndexOutOfRange z), j).
Proof.
  intros j keyPath c k t s z Hw Hs Ht Hz.
  unfold Remove. erewrite Remove_loop_at_walk by exact Hw.
  rewrite (@Remove_loop_on_slice j _ c k t s z None "" Hs Ht).
  cbv zeta.
  destruct (z =? -1) eqn:E.
  - apply Z.eqb_eq in E. subst z.
    destruct Hz as [Hz|[Hz|[_ ->]]]; try lia. reflexivity.
  - apply Z.eqb_neq in E.
    replace ((z <? 0) || (Z.of_nat (List.length s) <=? z)) with true;
      [reflexivity|].
    symmetry. apply orb_true_iff.
    destruct Hz as [Hz|[Hz|[Hz _]]];
      [left; apply Z.ltb_lt | right; apply Z.leb_le | ]; lia.
Qed.

Lemma Remove_out_of_range_witness :
  Remove (scenario false) "a.c[3]"
  = (Err (ERemoveIndexOutOfRange 3), scenario false).
Proof.
  apply (@Remove_out_of_range (scenario false) "a.c[3]" [Key "a"] "c" "3"
           [VNum 10; VNum 20; VNum 30] 3).
  - reflexivity.
  - reflexivity.
  - reflexivity.
  - right. left. simpl. lia.
Defined.

(* ================================================================== *)
(** ** Further properties of the condition evaluator *)
(* ================================================================== *)

Section Combinators.

Variable value : Value.

Lemma eval_and_all (ps : Mapping) :
  forallb (evaluable value) ps = true ->
  eval_and value ps = Ok (forallb (satisfied value) ps).
Proof.
  induction ps as [|[op cv] r IH]; intros H; simpl in *; [reflexivity|].
  apply andb_prop in H as [Hp Hr]. unfold evaluable in Hp.
  unfold satisfied at 1. simpl in *.
  destruct (checkCondition value op cv) as [[|]| |]; try discriminate.
  - now rewrite (IH Hr).
  - reflexivity.
Qed.

Lemma eval_or_any (ps : Mapping) :
  forallb (evaluable value) ps = true ->
  eval_or value ps = Ok (existsb (satisfied value) ps).
Proof.
  induction ps as [|[op cv] r IH]; intros H; simpl in *; [reflexivity|].
  apply andb_prop in H as [Hp Hr]. unfold evaluable in Hp.
  unfold satisfied at 1. simpl in *.
  destruct (checkCondition value op cv) as [[|]| |]; try discriminate.
  - reflexivity.
  - now rewrite (IH Hr).
Qed.

Lemma eval_nor_none (ps : Mapping) :
  forallb (evaluable value) ps = true ->
  eval_nor value ps = Ok (negb (existsb (satisfied value) ps)).
Proof.
  induction ps as [|[op cv] r IH]; intros H; simpl in *; [reflexivity|].
  apply andb_prop in H as [Hp Hr]. unfold evaluable in Hp.
  unfold satisfied at 1. simpl in *.
  destruct (checkCondition value op cv) as [[|]| |]; try discriminate.
  - reflexivity.
  - now rewrite (IH Hr).
Qed.

(** The pairs before the one that decides are passed over. *)
Lemma eval_and_stops (ps1 ps2 : Mapping) (op : string) (operand : Value) :
  forallb (satisfied value) ps1 = true ->
  checkCondition value op operand = Ok false ->
  eval_and value (ps1 ++ (op, operand) :: ps2) = Ok false.
Proof.
  intros H1 Hp. induction ps1 as [|[op1 cv1] r IH]; simpl in *.
  - now rewrite Hp.
  - apply andb_prop in H1 as [Ha Hr]. unfold satisfied in Ha. simpl in Ha.
    destruct (checkCondition value op1 cv1) as [[|]| |]; try discriminate.
    exact (IH Hr).
Qed.

Lemma eval_or_stops (ps1 ps2 : Mapping) (op : string) (operand : Value) :
  forallb (fun p => evaluable value p && negb (satisfied value p)) ps1 = true ->
  checkCondition value op operand = Ok true ->
  eval_or value (ps1 ++ (op, operand) :: ps2) = Ok true
  /\ eval_nor value (ps1 ++ (op, operand) :: ps2) = Ok false.
Proof.
  intros H1 Hp. induction ps1 as [|[op1 cv1] r IH]; simpl in *.
  - now rewrite Hp.
  - apply andb_prop in H1 as [Ha Hr].
    unfold evaluable, satisfied in Ha. simpl in Ha.
    destruct (checkCondition value op1 cv1) as [[|]| |]; try discriminate.
    exact (IH Hr).
Qed.

End Combinators.

(** X16.  When every (operator, operand) pair of the subconditions,
    taken in their order, can be evaluated on the leaf, [and] is the
    conjunction of the pairs, [or] their disjunction and [nor] the
    negation of that disjunction. *)
Theorem logical_operators_meaning :
  forall (value : Value) (subConditions : list Mapping)
         (others : list (string * list Mapping)),
    let ps := List.concat subConditions in
    forallb (evaluable value) ps = true ->
    evaluateCondition value (CondLogical (("and", subConditions) :: others))
    = Ok (forallb (satisfied value) ps)
    /\ evaluateCondition value (CondLogical (("or", subConditions) :: others))
       = Ok (existsb (satisfied value) ps)
    /\ evaluateCondition value (CondLogical (("nor", subConditions) :: others))
       = Ok (negb (existsb (satisfied value) ps)).
Proof.
  intros value subConditions others ps H. split; [|split].
  - exact (@eval_and_all value ps H).
  - exact (@eval_or_any value ps H).
  - exact (@eval_nor_none value ps H).
Qed.

Lemma logical_operators_meaning_witness :
  let subConditions := [[("gt", VInt Int 20)]; [("lt", VInt Int 22)]] in
  evaluateCondition (VNum 25) (CondLogical [("and", subConditions)])
  = Ok false
  /\ evaluateCondition (VNum 25) (CondLogical [("or", subConditions)])
     = Ok true
  /\ evaluateCondition (VNum 25) (CondLogical [("nor", subConditions)])
     = Ok false.
Proof.
  apply (@logical_operators_meaning (VNum 25)
           [[("gt", VInt Int 20)]; [("lt", VInt Int 22)]] []).
  reflexivity.
Defined.

(** X17.  [and], [or] and [nor] stop at the pair that decides: what
    follows it is not evaluated, so an operator there that would fail
    does not make the evaluation fail.  [and] is decided by the first
    unsatisfied pair, [or] and [nor] by the first satisfied one. *)
Theorem logical_operators_short_circuit :
  forall (value : Value) (subConditions : list Mapping)
         (others : list (string * list Mapping))
         (ps1 ps2 : Mapping) (op : string) (operand : Value),
    pairs_of subConditions = ps1 ++ (op, operand) :: ps2 ->
    (forallb (satisfied value) ps1 = true ->
     checkCondition value op operand = Ok false ->
     evaluateCondition value (CondLogical (("and", subConditions) :: others))
     = Ok false)
    /\ (forallb (fun p => evaluable value p && negb (satisfied value p)) ps1
        = true ->
        checkCondition value op operand = Ok true ->
        evaluateCondition value (CondLogical (("or", subConditions) :: others))
        = Ok true
        /\ evaluateCondition value
             (CondLogical (("nor", subConditions) :: others))
           = Ok false).
Proof.
  intros value subConditions others ps1 ps2 op operand Hps. split.
  - intros H1 Hp. simpl. rewrite Hps. now apply eval_and_stops.
  - intros H1 Hp. simpl. rewrite Hps. now apply eval_or_stops.
Qed.

Lemma logical_operators_short_circuit_witness :
  evaluateCondition (VNum 5)
    (CondLogical [("and", [[("gt", VInt Int 9)]; [("foo", VNil)]])])
  = Ok false
  /\ evaluateCondition (VNum 5)
       (CondLogical [("or", [[("lt", VInt Int 9)]; [("foo", VNil)]])])
     = Ok true
  /\ evaluateCondition (VNum 5)
       (CondLogical [("nor", [[("lt", VInt Int 9)]; [("foo", VNil)]])])
     = Ok false.
Proof.
  split.
  - apply (proj1 (@logical_operators_short_circuit (VNum 5)
                    [[("gt", VInt Int 9)]; [("foo", VNil)]] []
                    [] [("foo", VNil)] "gt" (VInt Int 9) eq_refl));
      reflexivity.
  - apply (proj2 (@logical_operators_short_circuit (VNum 5)
                    [[("lt", VInt Int 9)]; [("foo", VNil)]] []
                    [] [("foo", VNil)] "lt" (VInt Int 9) eq_refl));
      reflexivity.
Defined.

Lemma convertToFloat64_numeric (v : Value) :
  isNumeric v = true -> exists f, convertToFloat64 v = Ok f.
Proof. destruct v; simpl; try discriminate; eauto. Qed.

Lemma DeepEqual_same_type (a b : Value) :
  DeepEqual a b = true -> TypeOf a = TypeOf b.
Proof.
  destruct a, b; simpl; try discriminate; try reflexivity.
  - destruct k, k0; simpl; try discriminate; reflexivity.
  - destruct k, k0; simpl; try discriminate; reflexivity.
Qed.

(** X18.  [eq] and [neq] always return a truth value, never an error or
    a fault; and they are each other's negation unless both sides are
    numeric. *)
Theorem eq_neq_total :
  forall value operand : Value,
    (exists b, checkCondition value "eq" operand = Ok b)
    /\ (exists b, checkCondition value "neq" operand = Ok b)
    /\ (isNumeric value && isNumeric operand = false ->
        exists b,
          checkCondition value "eq" operand = Ok b
          /\ checkCondition value "neq" operand = Ok (negb b)).
Proof.
  intros value operand. unfold checkCondition. simpl.
  split; [|split].
  - destruct (isNumeric value && isNumeric operand) eqn:E; [|eauto].
    apply andb_prop in E as [Hv Ho].
    destruct (convertToFloat64_numeric _ Hv) as [x ->].
    destruct (convertToFloat64_numeric _ Ho) as [y ->]. simpl. eauto.
  - destruct (negb _); eauto.
  - intros E. rewrite E. eexists. split; [reflexivity|].
    destruct (GoType_eqb (TypeOf value) (TypeOf operand)) eqn:T; simpl;
      [reflexivity|].
    destruct (DeepEqual value operand) eqn:D; [|reflexivity].
    apply DeepEqual_same_type in D. apply GoType_eqb_eq in D. congruence.
Qed.

(** X19.  [checkCondition] fails with the unsupported-operation error
    exactly when the operator is none of [eq], [neq], [lt], [lte], [gt]
    and [gte]; the operators are case-sensitive. *)
Theorem unsupported_operation_iff :
  forall (value : Value) (op : string) (operand : Value),
    checkCondition value op operand = Err (EUnsupportedOperation op)
    <-> is_comparison op = false.
Proof.
  intros value op operand. unfold checkCondition, is_comparison.
  destruct (String.eqb op "eq") eqn:E1; simpl.
  - split; [|discriminate]. intros H.
    destruct (isNumeric value && isNumeric operand) eqn:E; [|discriminate].
    apply andb_prop in E as [Hv Ho].
    destruct (convertToFloat64_numeric _ Hv) as [x Hx].
    destruct (convertToFloat64_numeric _ Ho) as [y Hy].
    rewrite Hx, Hy in H. discriminate.
  - destruct (String.eqb op "neq") eqn:E2; simpl.
    + split; [|discriminate]. destruct (negb _); discriminate.
    + destruct (is_ordering op) eqn:E3; [|tauto].
      split; [|discriminate]. intros H.
      destruct (_ || _); [|discriminate].
      unfold compareNumericUsingReflect in H.
      destruct value, operand; simpl in H; try discriminate;
        repeat match type of H with
               | (if ?b then _ else _) = _ => destruct b; try discriminate
               end.
Qed.

Example operators_case_sensitive :
  checkCondition (VNum 1) "EQ" (VNum 1) = Err (EUnsupportedOperation "EQ").
Proof. reflexivity. Qed.

(* ================================================================== *)
(** ** Further properties of [FindAllWithCondition] *)
(* ================================================================== *)

(** X20.  A search that starts on a map or on a slice, as every search
    from the root does, never returns an error of the condition: it
    returns paths, or it faults. *)
Theorem search_from_container_no_error :
  forall (j : JsonMapper) (keyPath : string) (conditions : Conditions)
         (start : Value),
    Find j keyPath = Ok start ->
    is_container start = true ->
    forall e, FindAllWithCondition j keyPath conditions <> Err e.
Proof.
  intros j keyPath conditions start HF Hc e.
  unfold FindAllWithCondition.
  assert (Hs : (if String.eqb keyPath "" then Ok (root j)
                else Find j keyPath) = Ok start).
  { destruct (String.eqb keyPath "") eqn:E; [|exact HF].
    unfold Find in HF. now rewrite E in HF. }
  rewrite Hs. simpl.
  pose proof (@evaluate_container_no_error conditions start keyPath []) as G.
  destruct (evaluate conditions start keyPath []) as [[u|e'|p] rs];
    try discriminate.
  intros H. injection H as ->. apply (G ltac:(destruct start; try discriminate Hc; eauto) e).
  reflexivity.
Qed.

Lemma search_from_container_no_error_witness :
  FindAllWithCondition (scenario false) "a" (CondFlat [("foo", VNil)])
  <> Err (EUnsupportedOperation "foo").
Proof.
  apply (@search_from_container_no_error (scenario false) "a"
           (CondFlat [("foo", VNil)])
           (VMap [("b", VNum 1); ("c", VSlice [VNum 10; VNum 20; VNum 30])])).
  - reflexivity.
  - reflexivity.
Defined.

(** Induction on values, with the hypothesis for every element of a
    slice and every entry of a map. *)
Lemma Value_nested_ind (P : Value -> Prop) :
  (forall v, is_container v = false -> P v) ->
  (forall l, Forall P l -> P (VSlice l)) ->
  (forall mp, Forall (fun kv => P (snd kv)) mp -> P (VMap mp)) ->
  forall v, P v.
Proof.
  intros Hleaf Hslice Hmap. fix IH 1. intros v.
  destruct v as [| | | | | | |l|mp]; try (apply Hleaf; reflexivity).
  - apply Hslice. induction l as [|x r IHl]; constructor; [apply IH | exact IHl].
  - apply Hmap. induction mp as [|[k x] r IHm]; constructor;
      [apply IH | exact IHm].
Qed.

Lemma prefix_nil (s : string) : String.prefix "" s = true.
Proof. destruct s; reflexivity. Qed.

Lemma prefix_append (a b : string) : String.prefix a (a ++ b) = true.
Proof.
  induction a as [|c a IH]; simpl; [apply prefix_nil|].
  destruct (ascii_dec c c); [exact IH | congruence].
Qed.

Lemma prefix_trans (a : string) :
  forall b c,
    String.prefix a b = true -> String.prefix b c = true ->
    String.prefix a c = true.
Proof.
  induction a as [|x a IH]; intros b c Hab Hbc; [apply prefix_nil|].
  destruct b as [|y b]; [discriminate|].
  destruct c as [|z c]; [discriminate|].
  simpl in *.
  destruct (ascii_dec x y); [|discriminate].
  destruct (ascii_dec y z); [|discriminate].
  subst. destruct (ascii_dec z z); [|congruence]. eauto.
Qed.

(** Every path that a visit adds starts with the path of the visit. *)
Lemma evaluate_paths (conditions : Conditions) :
  forall (current : Value) (currentPath : string) (results : list string)
         (r : string),
    In r (snd (evaluate conditions current currentPath results)) ->
    In r results \/ String.prefix currentPath r = true.
Proof.
  intros current. induction current as [v Hv|l IHl|mp IHm]
    using Value_nested_ind; intros currentPath results r Hin.
  - assert (E : evaluate conditions v currentPath results
                = match evaluateCondition v conditions with
                  | Err e => (Err e, results)
                  | Panic p => (Panic p, results)
                  | Ok satisfied =>
                      (Ok tt, if satisfied then results ++ [currentPath]
                              else results)
                  end)
      by (destruct v; try discriminate Hv; reflexivity).
    rewrite E in Hin.
    destruct (evaluateCondition v conditions) as [[|]| |]; simpl in Hin;
      auto.
    apply in_app_or in Hin as [Hin|[<-|[]]]; [auto|].
    right. rewrite <- (string_app_nil_r currentPath) at 2.
    apply prefix_append.
  - simpl in Hin. revert results Hin. generalize 0%nat.
    induction IHl as [|x rest Hx Hrest IH]; intros i results Hin.
    + simpl in Hin. auto.
    + unfold discard at 1 in Hin.
      match type of Hin with
      | context [evaluate conditions x ?np results] =>
          pose proof (Hx np results r) as G;
          assert (Hnp : String.prefix currentPath np = true)
            by apply prefix_append;
          destruct (evaluate conditions x np results) as [[u|e|p] rs]
      end; simpl in G.
      * apply IH in Hin as [Hin|Hin]; [|auto].
        destruct (G Hin) as [G1|G1]; [auto|]. right.
        eapply prefix_trans; [exact Hnp | exact G1].
      * apply IH in Hin as [Hin|Hin]; [|auto].
        destruct (G Hin) as [G1|G1]; [auto|]. right.
        eapply prefix_trans; [exact Hnp | exact G1].
      * simpl in Hin.
        destruct (G Hin) as [G1|G1]; [auto|]. right.
        eapply prefix_trans; [exact Hnp | exact G1].
  - simpl in Hin. revert results Hin.
    assert (Hnew : forall k,
               String.prefix currentPath
                 ((if String.eqb currentPath "" then currentPath
                   else currentPath ++ ".") ++ k)%string = true).
    { intros k. destruct (String.eqb currentPath "") eqn:E.
      - apply String.eqb_eq in E. subst. apply prefix_nil.
      - rewrite string_app_assoc. apply prefix_append. }
    induction IHm as [|[k x] rest Hx Hrest IH]; intros results Hin.
    + simpl in Hin. auto.
    + simpl snd in Hx. unfold discard at 1 in Hin.
      match type of Hin with
      | context [evaluate conditions x ?np results] =>
          pose proof (Hx np results r) as G;
          assert (Hnp : String.prefix currentPath np = true)
            by apply Hnew;
          destruct (evaluate conditions x np results) as [[u|e|p] rs]
      end; simpl in G.
      * apply IH in Hin as [Hin|Hin]; [|auto].
        destruct (G Hin) as [G1|G1]; [auto|]. right.
        eapply prefix_trans; [exact Hnp | exact G1].
      * apply IH in Hin as [Hin|Hin]; [|auto].
        destruct (G Hin) as [G1|G1]; [auto|]. right.
        eapply prefix_trans; [exact Hnp | exact G1].
      * simpl in Hin.
        destruct (G Hin) as [G1|G1]; [auto|]. right.
        eapply prefix_trans; [exact Hnp | exact G1].
Qed.

(** X21.  Every path that [FindAllWithCondition] returns starts with
    the start path. *)
Theorem search_paths_start_with_keyPath :
  forall (j : JsonMapper) (keyPath : string) (conditions : Conditions)
         (results : list string),
    FindAllWithCondition j keyPath conditions = Ok results ->
    Forall (fun r => String.prefix keyPath r = true) results.
Proof.
  intros j keyPath conditions results H.
  unfold FindAllWithCondition in H.
  destruct (if String.eqb keyPath "" then Ok (root j) else Find j keyPath)
    as [start| |]; try discriminate. simpl in H.
  pose proof (@evaluate_paths conditions start keyPath []) as G.
  destruct (evaluate conditions start keyPath []) as [[u|e|p] rs];
    try discriminate.
  injection H as ->. apply Forall_forall. intros r Hin.
  destruct (G r Hin) as [[]|Hp]. exact Hp.
Qed.

Lemma search_paths_start_with_keyPath_witness :
  Forall (fun r => String.prefix "a" r = true) ["a.c[1]"; "a.c[2]"]%string.
Proof.
  apply (@search_paths_start_with_keyPath (scenario_removed false) "a" gt_25).
  vm_compute. reflexivity.
Defined.

(** A visit of a leaf. *)
Lemma evaluate_leaf (conditions : Conditions) (v : Value)
    (currentPath : string) (results : list string) :
  is_container v = false ->
  evaluate conditions v currentPath results
  = match evaluateCondition v conditions with
    | Err e => (Err e, results)
    | Panic p => (Panic p, results)
    | Ok satisfied =>
        (Ok tt, if satisfied then results ++ [currentPath] else results)
    end.
Proof. intros Hv. destruct v; try discriminate Hv; reflexivity. Qed.

(** X22.  A search that starts on a sequence of leaves, with a
    condition each of whose maps has one entry at most, returns the
    paths of the elements on which the condition is true, in the order
    of the sequence; an element on which the condition fails is passed
    over.  The condition must not fault on any element.  (With more
    entries in a map of the condition, the entry that Go takes first can
    change from one element to the next.) *)
Theorem search_in_sequence_order :
  forall (j : JsonMapper) (keyPath : string) (conditions : Conditions)
         (l : list Value),
    order_free conditions = true ->
    Find j keyPath = Ok (VSlice l) ->
    Forall (fun v => is_container v = false) l ->
    Forall (fun v => forall p, evaluateCondition v conditions <> Panic p) l ->
    FindAllWithCondition j keyPath conditions
    = Ok (matching_elements conditions keyPath l 0).
Proof.
  intros j keyPath conditions l _ HF Hleaf Hnp.
  unfold FindAllWithCondition.
  assert (Hs : (if String.eqb keyPath "" then Ok (root j)
                else Find j keyPath) = Ok (VSlice l)).
  { destruct (String.eqb keyPath "") eqn:E; [|exact HF].
    unfold Find in HF. rewrite E in HF. discriminate. }
  rewrite Hs. cbn [bind]. clear Hs HF.
  assert (G : forall (i : nat) (results : list string),
             (fix elems (l0 : list Value) (i0 : nat) (results0 : list string)
                  {struct l0} : visit :=
                match l0 with
                | [] => (Ok tt, results0)
                | v :: r =>
                    discard
                      (evaluate conditions v
                         (keyPath ++ "[" ++ Itoa i0 ++ "]")%string results0)
                      (elems r (S i0))
                end) l i results
             = (Ok tt, results ++ matching_elements conditions keyPath l i)).
  { induction l as [|v r IH]; intros i results.
    - simpl. now rewrite app_nil_r.
    - inversion Hleaf as [|? ? Hv Hr]; subst.
      inversion Hnp as [|? ? Pv Pr]; subst.
      rewrite (evaluate_leaf _ _ _ _ Hv). simpl matching_elements.
      destruct (evaluateCondition v conditions) as [[|]|e|p];
        unfold discard.
      + rewrite (IH Hr Pr). now rewrite <- app_assoc.
      + now rewrite (IH Hr Pr).
      + now rewrite (IH Hr Pr).
      + now elim (Pv p). }
  assert (E : evaluate conditions (VSlice l) keyPath []
              = (Ok tt, [] ++ matching_elements conditions keyPath l 0))
    by exact (G 0%nat []).
  now rewrite E.
Qed.

Lemma search_in_sequence_order_witness :
  FindAllWithCondition (scenario false) "a.c" (CondFlat [("gte", VInt Int 20)])
  = Ok ["a.c[1]"; "a.c[2]"]%string.
Proof.
  apply (@search_in_sequence_order (scenario false) "a.c"
           (CondFlat [("gte", VInt Int 20)]) [VNum 10; VNum 20; VNum 30]).
  - reflexivity.
  - reflexivity.
  - repeat constructor.
  - repeat constructor; intros p; vm_compute; discriminate.
Defined.

(* ================================================================== *)
(** ** A property of the typed accessors *)
(* ================================================================== *)

Lemma maps_of_spec (slice : list Value) :
  forall ms : list Mapping,
    maps_of slice = Some ms <-> slice = map VMap ms.
Proof.
  induction slice as [|v r IH]; intros ms; simpl.
  - split.
    + intros [= <-]. reflexivity.
    + destruct ms; [reflexivity | discriminate].
  - destruct v; try (split; [discriminate | destruct ms; discriminate]).
    destruct (maps_of r) as [ms'|] eqn:E.
    + split.
      * intros [= <-]. simpl. f_equal. now apply IH.
      * destruct ms as [|m0 ms0]; [discriminate|]. simpl.
        intros [= -> Hr]. apply IH in Hr. now injection Hr as ->.
    + split; [discriminate|].
      destruct ms as [|m0 ms0]; [discriminate|]. simpl.
      intros [= -> Hr]. apply IH in Hr. discriminate.
Qed.

(** X23.  [FindSliceOfMaps] returns a list of maps exactly when [Find]
    returns a slice whose elements are those maps, in the same order; a
    single element of another type makes it fail. *)
Theorem FindSliceOfMaps_iff :
  forall (j : JsonMapper) (k : string) (ms : list Mapping),
    FindSliceOfMaps j k = Found ms <-> Find j k = Ok (VSlice (map VMap ms)).
Proof.
  intros j k ms. unfold FindSliceOfMaps.
  destruct (Find j k) as [[| | | | | | |slice|]| |];
    try (split; discriminate).
  destruct (maps_of slice) as [ms'|] eqn:E.
  - apply maps_of_spec in E. subst slice. split.
    + now intros [= ->].
    + intros [= H]. f_equal.
      revert ms H. induction ms' as [|a r IH]; intros [|b ms] H;
        try discriminate; [reflexivity|].
      simpl in H. injection H as -> H. f_equal. now apply IH.
  - split; [discriminate|].
    intros [= ->]. rewrite (proj2 (maps_of_spec _ ms) eq_refl) in E.
    discriminate.
Qed.

(* ================================================================== *)
(** ** How [Add] ends on sequences and on missing keys *)
(* ================================================================== *)

(** [Add] at the node that the keys [pre] of nested maps lead to. *)
Lemma Add_at (j : JsonMapper) (keyPath : string) (pre rest : list string)
    (value x : Value) :
  rest <> [] ->
  keys_of keyPath = pre ++ rest ->
  deref j (map Key pre) = Some x ->
  Add j keyPath value
  = Add_loop (pre ++ rest) value (List.length pre) rest (map Key pre) j.
Proof.
  intros Hrest Hk Hd. unfold Add. rewrite Hk.
  exact (@Add_loop_along (pre ++ rest) value rest x pre Hrest [] j Hd).
Qed.

(** X24.  Below the first level, [Add] at an index within a sequence
    replaces that element and nothing else: the sequence keeps its
    length and its other elements. *)
Theorem Add_overwrites_element :
  forall (j : JsonMapper) (keyPath : string) (pre : list string)
         (k t : string) (s : list Value) (i : nat) (value : Value),
    pre <> [] ->
    keys_of keyPath = pre ++ [k; t] ->
    Atoi t = (Z.of_nat i, None) ->
    (i < List.length s)%nat ->
    deref j (map Key (pre ++ [k])) = Some (VSlice s) ->
    exists (j' : JsonMapper) (s' : list Value),
      Add j keyPath value = (Ok tt, j')
      /\ deref j' (map Key (pre ++ [k])) = Some (VSlice s')
      /\ List.length s' = List.length s
      /\ nth_error s' i = Some value
      /\ forall n, n <> i -> nth_error s' n = nth_error s n.
Proof.
  intros j keyPath pre k t s i value Hne Hk Ht Hi Hd.
  set (s' := lalter i (fun _ => value) s).
  set (j1 := store j (map Key (pre ++ [k])) (fun _ => VSlice s')).
  assert (Hd1 : deref j1 (map Key (pre ++ [k])) = Some (VSlice s')).
  { unfold deref, j1. rewrite root_store.
    - exact (@get_upd_at_same _ (fun _ => VSlice s') _ _ Hd).
    - left. rewrite map_app. intros Hnil.
      apply app_eq_nil in Hnil as [_ Hnil]. discriminate. }
  destruct (deref_key_prefix j1 (map Key pre) [] k (x := VSlice s'))
    as (mp1 & v1 & Hpre1 & _); [now rewrite map_app in Hd1|].
  exists (store j1 (map Key pre) (assign k (VSlice s'))), s'.
  split; [|split; [|split; [|split]]].
  - change (pre ++ [k; t]) with (pre ++ [k] ++ [t]) in Hk.
    rewrite app_assoc in Hk.
    rewrite (@Add_at j keyPath (pre ++ [k]) [t] value (VSlice s)
               ltac:(discriminate) Hk Hd).
    cbn [Add_loop]. rewrite Hd, Ht.
    replace (Z.of_nat i =? -1) with false by (symmetry; apply Z.eqb_neq; lia).
    replace ((0 <=? Z.of_nat i) && (Z.of_nat i <? Z.of_nat (List.length s)))
      with true
      by (symmetry; apply andb_true_iff;
          split; [apply Z.leb_le | apply Z.ltb_lt]; lia).
    rewrite Nat2Z.id. fold s'. fold j1.
    exact (@reattach_below j1 pre k t (VSlice s') (VSlice s') Hne Hd1).
  - rewrite map_app. exact (@deref_store_assign j1 _ k _ mp1 Hpre1).
  - apply length_lalter.
  - unfold s'. rewrite nth_error_lalter_same.
    destruct (nth_error s i) eqn:E; [reflexivity|].
    apply nth_error_None in E. lia.
  - intros n Hn. unfold s'. clear -Hn. revert n i Hn.
    induction s as [|x r IH]; intros [|n] [|i] Hn; simpl; try reflexivity;
      try congruence.
    apply IH. congruence.
Qed.

Lemma Add_overwrites_element_witness :
  exists (j' : JsonMapper) (s' : list Value),
    Add (scenario false) "a.c[1]" (VNum 7) = (Ok tt, j')
    /\ deref j' (map Key (["a"] ++ ["c"])) = Some (VSlice s')
    /\ List.length s' = List.length [VNum 10; VNum 20; VNum 30]
    /\ nth_error s' 1 = Some (VNum 7)
    /\ forall n, n <> 1%nat ->
                 nth_error s' n = nth_error [VNum 10; VNum 20; VNum 30] n.
Proof.
  apply (@Add_overwrites_element (scenario false) "a.c[1]" ["a"] "c" "1"
           [VNum 10; VNum 20; VNum 30] 1 (VNum 7)).
  - discriminate.
  - reflexivity.
  - reflexivity.
  - simpl. lia.
  - reflexivity.
Defined.

(** X25.  On a sequence, a last key that is not the text of an integer
    makes [Add] fail with the invalid-index error, and an integer other
    than -1 outside the sequence with the out-of-range error; in both
    cases the document is left as it is. *)
Theorem Add_sequence_errors :
  forall (j : JsonMapper) (keyPath : string) (pre : list string)
         (t : string) (s : list Value) (value : Value),
    keys_of keyPath = pre ++ [t] ->
    deref j (map Key pre) = Some (VSlice s) ->
    (snd (Atoi t) <> None ->
     Add j keyPath value = (Err (EAddInvalidArrayIndex t), j))
    /\ (forall z, Atoi t = (z, None) ->
                  z < -1 \/ Z.of_nat (List.length s) <= z ->
                  Add j keyPath value = (Err (EAddIndexOutOfRange z), j)).
Proof.
  intros j keyPath pre t s value Hk Hd.
  rewrite (@Add_at j keyPath pre [t] value (VSlice s)
             ltac:(discriminate) Hk Hd).
  cbn [Add_loop]. rewrite Hd. split.
  - intros He. destruct (Atoi t) as [z [e|]]; [reflexivity | now elim He].
  - intros z Hz Hr. rewrite Hz.
    replace (z =? -1) with false by (symmetry; apply Z.eqb_neq; lia).
    replace ((0 <=? z) && (z <? Z.of_nat (List.length s))) with false;
      [reflexivity|].
    symmetry. apply andb_false_iff.
    destruct Hr; [left; apply Z.leb_gt | right; apply Z.ltb_ge]; lia.
Qed.

Lemma Add_sequence_errors_witness :
  Add (scenario false) "a.c.x" (VNum 7)
  = (Err (EAddInvalidArrayIndex "x"), scenario false)
  /\ Add (scenario false) "a.c[3]" (VNum 7)
     = (Err (EAddIndexOutOfRange 3), scenario false).
Proof.
  split.
  - apply (proj1 (@Add_sequence_errors (scenario false) "a.c.x" ["a"; "c"]
                    "x" [VNum 10; VNum 20; VNum 30] (VNum 7)
                    eq_refl eq_refl)).
    discriminate.
  - apply (proj2 (@Add_sequence_errors (scenario false) "a.c[3]" ["a"; "c"]
                    "3" [VNum 10; VNum 20; VNum 30] (VNum 7)
                    eq_refl eq_refl) 3).
    + reflexivity.
    + right. simpl. lia.
Defined.

(** X26.  A sequence directly under the root cannot be written through
    [Add]: with -1 or an index within the sequence as the second key of
    a two-key path, the re-attachment takes [keys[1:0]] and faults. *)
Theorem Add_faults_at_depth_two :
  forall (j : JsonMapper) (keyPath k t : string) (s : list Value) (z : Z)
         (value : Value),
    keys_of keyPath = [k; t] ->
    mget k (m j) = Some (VSlice s) ->
    Atoi t = (z, None) ->
    z = -1 \/ 0 <= z < Z.of_nat (List.length s) ->
    fst (Add j keyPath value) = Panic (FSliceBounds 1 0).
Proof.
  intros j keyPath k t s z value Hk Hget Ht Hz.
  assert (Hd : deref j (map Key [k]) = Some (VSlice s)).
  { unfold deref, root. simpl. now rewrite Hget. }
  rewrite (@Add_at j keyPath [k] [t] value (VSlice s)
             ltac:(discriminate) Hk Hd).
  cbn [Add_loop]. rewrite Hd, Ht.
  destruct (z =? -1) eqn:E; [reflexivity|].
  apply Z.eqb_neq in E.
  replace ((0 <=? z) && (z <? Z.of_nat (List.length s))) with true;
    [reflexivity|].
  symmetry. apply andb_true_iff.
  split; [apply Z.leb_le | apply Z.ltb_lt]; lia.
Qed.

Lemma Add_faults_at_depth_two_witness :
  fst (Add (mkJsonMapper [("a", VSlice [VNum 1; VNum 2])]) "a[-1]" (VNum 3))
  = Panic (FSliceBounds 1 0).
Proof.
  apply (@Add_faults_at_depth_two
           (mkJsonMapper [("a", VSlice [VNum 1; VNum 2])]) "a[-1]" "a" "-1"
           [VNum 1; VNum 2] (-1) (VNum 3)).
  - reflexivity.
  - reflexivity.
  - reflexivity.
  - left. reflexivity.
Defined.

(** X27.  [Add] faults, and leaves the document as it is, when a key
    that is not the last one has to be looked up in something that is
    not a map: a sequence, a scalar or null reached through the keys
    before it. *)
Theorem Add_faults_off_map :
  forall (j : JsonMapper) (keyPath : string) (pre : list string)
         (k k2 : string) (rest : list string) (node value : Value),
    keys_of keyPath = pre ++ k :: k2 :: rest ->
    deref j (map Key pre) = Some node ->
    TypeOf node <> TMap ->
    Add j keyPath value = (Panic FTypeAssertion, j).
Proof.
  intros j keyPath pre k k2 rest node value Hk Hd Hn.
  rewrite (@Add_at j keyPath pre (k :: k2 :: rest) value node
             ltac:(discriminate) Hk Hd).
  rewrite Add_loop_step by discriminate. rewrite Hd.
  destruct node; try reflexivity. now elim Hn.
Qed.

Lemma Add_faults_off_map_witness :
  Add (scenario false) "a.c[0].x" (VNum 7)
  = (Panic FTypeAssertion, scenario false).
Proof.
  apply (@Add_faults_off_map (scenario false) "a.c[0].x" ["a"; "c"] "0" "x"
           [] (VSlice [VNum 10; VNum 20; VNum 30]) (VNum 7)).
  - reflexivity.
  - reflexivity.
  - discriminate.
Defined.

(** X28.  [Add] creates no map under a key that is the text of an
    integer: when such a key, not the last of the path, is missing from
    the map reached through the keys before it, [Add] fails with the
    invalid-index error and leaves the document as it is. *)
Theorem Add_missing_integer_key :
  forall (j : JsonMapper) (keyPath : string) (pre : list string)
         (k k2 : string) (rest : list string) (mp : Mapping) (z : Z)
         (value : Value),
    keys_of keyPath = pre ++ k :: k2 :: rest ->
    deref j (map Key pre) = Some (VMap mp) ->
    mget k mp = None ->
    Atoi k = (z, None) ->
    Add j keyPath value = (Err (EAddInvalidArrayIndex k), j).
Proof.
  intros j keyPath pre k k2 rest mp z value Hk Hd Hget Hz.
  rewrite (@Add_at j keyPath pre (k :: k2 :: rest) value (VMap mp)
             ltac:(discriminate) Hk Hd).
  rewrite Add_loop_step by discriminate.
  now rewrite Hd, Hget, Hz.
Qed.

Lemma Add_missing_integer_key_witness :
  Add (scenario false) "a.5.x" (VNum 7)
  = (Err (EAddInvalidArrayIndex "5"), scenario false).
Proof.
  apply (@Add_missing_integer_key (scenario false) "a.5.x" ["a"] "5" "x" []
           [("b", VNum 1); ("c", VSlice [VNum 10; VNum 20; VNum 30])] 5
           (VNum 7)).
  - reflexivity.
  - reflexivity.
  - reflexivity.
  - reflexivity.
Defined.

Lemma eq_neq_total_witness :
  exists b,
    checkCondition (VString "x") "eq" (VNum 1) = Ok b
    /\ checkCondition (VString "x") "neq" (VNum 1) = Ok (negb b).
Proof.
  apply (proj2 (proj2 (eq_neq_total (VString "x") (VNum 1)))).
  reflexivity.
Defined.
